(** * Verification of [BST<T>] (src/include/bst.hpp)

    An unbalanced binary search tree, generic over an element type [T]
    whose only assumed operation is [operator<].  The recursive
    private member functions are embedded as structurally recursive
    functions on trees; a [TreeNode*&] parameter that the code assigns
    through becomes a returned tree next to the boolean result. *)

From Stdlib Require Import List Bool Arith ZArith Lia Permutation Sorted.
Import ListNotations.

(** ** The ordering on the element type *)

(** Comparison-equality as the code derives it from [operator<]:
    the fall-through of [if (a < b) ... if (b < a) ...]. *)
Definition equivb {T : Type} (less : T -> T -> bool) (a b : T) : bool :=
  negb (less a b) && negb (less b a).

(** The contract of the template parameter: [operator<] is a strict
    weak ordering. *)
Class StrictWeakOrder {T : Type} (less : T -> T -> bool) : Prop := {
  less_irrefl : forall a, less a a = false;
  less_trans : forall a b c,
      less a b = true -> less b c = true -> less a c = true;
  equiv_trans : forall a b c,
      equivb less a b = true -> equivb less b c = true ->
      equivb less a c = true
}.

Arguments less_irrefl {T} less {_} a.
Arguments less_trans {T} less {_} a b c _ _.
Arguments equiv_trans {T} less {_} a b c _ _.

(** ** Data model *)

(** A value of type [TreeNode*]: either [nullptr] or a node that owns
    its two children (struct TreeNode, lines 19-49). *)
Inductive TreeNodePtr (T : Type) : Type :=
| nullptr : TreeNodePtr T
| TreeNode (data : T) (left right : TreeNodePtr T) : TreeNodePtr T.

Arguments nullptr {T}.
Arguments TreeNode {T} data left right.

(** class BST: the single private member [root] (line 198). *)
Record BST (T : Type) : Type := mkBST { root : TreeNodePtr T }.

Arguments mkBST {T} root.
Arguments root {T} b.

(** Mutating operations of the public interface. *)
Inductive Op (T : Type) : Type :=
| OpInsert (value : T)
| OpRemove (value : T).

Arguments OpInsert {T} value.
Arguments OpRemove {T} value.

Section Operations.

Context {T : Type}.
Variable less : T -> T -> bool.

Local Abbreviation ptr := (TreeNodePtr T).

Definition is_null (p : ptr) : bool :=
  match p with nullptr => true | TreeNode _ _ _ => false end.

(** TreeNode::max (lines 212-218); [this] is never null in the code. *)
Fixpoint max (this : ptr) : ptr :=
  match this with
  | nullptr => nullptr
  | TreeNode _ _ r =>
      match r with
      | nullptr => this
      | TreeNode _ _ _ => max r
      end
  end.

(** TreeNode::min (lines 220-226); [this] is never null in the code. *)
Fixpoint min (this : ptr) : ptr :=
  match this with
  | nullptr => nullptr
  | TreeNode _ l _ =>
      match l with
      | nullptr => this
      | TreeNode _ _ _ => min l
      end
  end.

(** BST::insert(TreeNode*&, const T&) (lines 254-268). *)
Fixpoint insert (node : ptr) (value : T) : bool * ptr :=
  match node with
  | nullptr => (true, TreeNode value nullptr nullptr)
  | TreeNode d l r =>
      if less value d then
        let (b, l') := insert l value in (b, TreeNode d l' r)
      else if less d value then
        let (b, r') := insert r value in (b, TreeNode d l r')
      else (false, node)
  end.

(** BST::contain(const TreeNode*, const T&) (lines 270-283). *)
Fixpoint contain (node : ptr) (value : T) : bool :=
  match node with
  | nullptr => false
  | TreeNode d l r =>
      if less value d then contain l value
      else if less d value then contain r value
      else true
  end.

(** BST::find_node(TreeNode*, const T&) (lines 114-126): the
    returned pointer is the matched node, with the subtree it owns. *)
Fixpoint find_node (node : ptr) (value : T) : ptr :=
  match node with
  | nullptr => nullptr
  | TreeNode d l r =>
      if less value d then find_node l value
      else if less d value then find_node r value
      else node
  end.

(** BST::remove(TreeNode*&, const T&) (lines 285-319).  In the third
    case the result of the inner call is dropped, as in the code.
    The last branch (dereferencing a null successor) cannot be
    reached: [r] is a node there, see [min_node]. *)
Fixpoint remove (node : ptr) (value : T) : bool * ptr :=
  match node with
  | nullptr => (false, nullptr)
  | TreeNode d l r =>
      if less value d then
        let (b, l') := remove l value in (b, TreeNode d l' r)
      else if less d value then
        let (b, r') := remove r value in (b, TreeNode d l r')
      else
        match l, r with
        | nullptr, _ => (true, r)
        | _, nullptr => (true, l)
        | _, _ =>
            match min r with
            | TreeNode succ_data _ _ =>
                (true, TreeNode succ_data l (snd (remove r succ_data)))
            | nullptr => (true, node)
            end
        end
  end.

(** The private traversals (lines 343-375): [result] is the vector
    passed by reference, [push_back] appends at its end. *)
Fixpoint in_order_rec (node : ptr) (result : list T) : list T :=
  match node with
  | nullptr => result
  | TreeNode d l r => in_order_rec r (in_order_rec l result ++ [d])
  end.

Fixpoint pre_order_rec (node : ptr) (result : list T) : list T :=
  match node with
  | nullptr => result
  | TreeNode d l r => pre_order_rec r (pre_order_rec l (result ++ [d]))
  end.

Fixpoint post_order_rec (node : ptr) (result : list T) : list T :=
  match node with
  | nullptr => result
  | TreeNode d l r => post_order_rec r (post_order_rec l result) ++ [d]
  end.

(** *** Public interface (lines 228-251, 321-341, 195) *)

Definition BST_new : BST T := mkBST nullptr.

Definition BST_insert (t : BST T) (value : T) : bool * BST T :=
  let (b, r) := insert (root t) value in (b, mkBST r).

Definition BST_remove (t : BST T) (value : T) : bool * BST T :=
  let (b, r) := remove (root t) value in (b, mkBST r).

Definition BST_contain (t : BST T) (value : T) : bool :=
  contain (root t) value.

Definition BST_find_node (t : BST T) (value : T) : ptr :=
  find_node (root t) value.

Definition in_order (t : BST T) : list T := in_order_rec (root t) [].
Definition pre_order (t : BST T) : list T := pre_order_rec (root t) [].
Definition post_order (t : BST T) : list T := post_order_rec (root t) [].

(** Running a sequence of public mutating calls, results dropped. *)
Definition apply_op (t : BST T) (o : Op T) : BST T :=
  match o with
  | OpInsert v => snd (BST_insert t v)
  | OpRemove v => snd (BST_remove t v)
  end.

Definition run (ops : list (Op T)) (t : BST T) : BST T :=
  fold_left apply_op ops t.

(** ** Specification-side notions *)

(** Every value stored below [p] satisfies [f]. *)
Fixpoint all_values (f : T -> bool) (p : ptr) : bool :=
  match p with
  | nullptr => true
  | TreeNode d l r => f d && all_values f l && all_values f r
  end.

(** The BST invariant of the data model: at every node, all of the
    left subtree is below the node's value, which is below all of
    the right subtree. *)
Fixpoint is_bst (p : ptr) : bool :=
  match p with
  | nullptr => true
  | TreeNode d l r =>
      all_values (fun x => less x d) l
      && all_values (fun x => less d x) r
      && is_bst l && is_bst r
  end.

Definition BST_inv (t : BST T) : bool := is_bst (root t).

(** Visiting orders as plain lists, to reason about the traversals. *)
Fixpoint inorder (p : ptr) : list T :=
  match p with
  | nullptr => []
  | TreeNode d l r => inorder l ++ d :: inorder r
  end.

Fixpoint preorder (p : ptr) : list T :=
  match p with
  | nullptr => []
  | TreeNode d l r => d :: preorder l ++ preorder r
  end.

Fixpoint postorder (p : ptr) : list T :=
  match p with
  | nullptr => []
  | TreeNode d l r => postorder l ++ postorder r ++ [d]
  end.

Fixpoint node_count (p : ptr) : nat :=
  match p with
  | nullptr => 0
  | TreeNode _ l r => S (node_count l + node_count r)
  end.

(** [new_leaf v p p']: [p'] is [p] with one absent child slot
    filled by a fresh leaf holding [v]; nothing else differs. *)
Inductive new_leaf (v : T) : ptr -> ptr -> Prop :=
| new_leaf_here : new_leaf v nullptr (TreeNode v nullptr nullptr)
| new_leaf_left d l l' r :
    new_leaf v l l' -> new_leaf v (TreeNode d l r) (TreeNode d l' r)
| new_leaf_right d l r r' :
    new_leaf v r r' -> new_leaf v (TreeNode d l r) (TreeNode d l r').

(** The three-way descent shared by all operations, with the node it
    stops at replaced by [s] (and nothing done when it stops at an
    absent slot). *)
Fixpoint replace_found (s : ptr) (node : ptr) (value : T) : ptr :=
  match node with
  | nullptr => nullptr
  | TreeNode d l r =>
      if less value d then TreeNode d (replace_found s l value) r
      else if less d value then TreeNode d l (replace_found s r value)
      else s
  end.

(** [node_in p q]: [p] is the node [q] or a node owned, directly
    or not, by [q]. *)
Inductive node_in : ptr -> ptr -> Prop :=
| node_in_here d l r : node_in (TreeNode d l r) (TreeNode d l r)
| node_in_left p d l r : node_in p l -> node_in p (TreeNode d l r)
| node_in_right p d l r : node_in p r -> node_in p (TreeNode d l r).

Definition strictly_ascending (xs : list T) : Prop :=
  StronglySorted (fun a b => less a b = true) xs.

End Operations.

(** ** Instances used in the concrete scenarios *)

(** [int] elements with the built-in [<]. *)
Definition int_less : Z -> Z -> bool := Z.ltb.

(** A record type ordered by its key alone: two records with the same
    key and different payloads are comparison-equal, not equal. *)
Definition key_less (a b : Z * Z) : bool := (fst a <? fst b)%Z.

Definition insert_all {T : Type} (less : T -> T -> bool) (vs : list T)
  : BST T :=
  run less (map OpInsert vs) BST_new.

(** Number of nodes on the longest path from [p] down to a leaf: the
    recursion depth of the descent in the worst case. *)
Fixpoint height {T : Type} (p : TreeNodePtr T) : nat :=
  match p with
  | nullptr => 0%nat
  | TreeNode _ l r => S (Nat.max (height l) (height r))
  end.

(** The set the tree stands for, seen from one probe value [w]: after
    a call on a value comparison-equal to [w] the answer is whether
    that call was an insertion, other calls do not matter. *)
Definition member_step {T : Type} (less : T -> T -> bool) (w : T)
  (b : bool) (o : Op T) : bool :=
  match o with
  | OpInsert v => b || equivb less w v
  | OpRemove v => b && negb (equivb less w v)
  end.

Definition member_after {T : Type} (less : T -> T -> bool) (w : T)
  (ops : list (Op T)) : bool :=
  fold_left (member_step less w) ops false.

(** No two values of [vs] are comparison-equal. *)
Definition pairwise_distinct {T : Type} (less : T -> T -> bool)
  (vs : list T) : Prop :=
  ForallOrdPairs (fun a b => equivb less a b = false) vs.

(** ** Boolean bookkeeping *)

Ltac split_andb :=
  repeat match goal with
    | H : _ && _ = true |- _ => apply andb_true_iff in H; destruct H
    | H : negb _ = true |- _ => apply negb_true_iff in H
    | H : negb _ = false |- _ => apply negb_false_iff in H
    end.

Ltac join_andb :=
  repeat (apply andb_true_iff; split); try apply negb_true_iff.

(** ** Consequences of the ordering contract *)

Section OrderFacts.

Context {T : Type} (less : T -> T -> bool) `{!StrictWeakOrder less}.

Lemma less_asym a b : less a b = true -> less b a = false.
Proof.
  intros Hab. destruct (less b a) eqn:Hba; [|reflexivity].
  rewrite <- (less_irrefl less a). symmetry.
  eapply (less_trans less); eauto.
Qed.

Lemma equivb_refl a : equivb less a a = true.
Proof. unfold equivb. now rewrite (less_irrefl less). Qed.

Lemma equivb_sym a b : equivb less a b = equivb less b a.
Proof. unfold equivb. apply andb_comm. Qed.

Lemma equivb_true a b :
  equivb less a b = true <-> less a b = false /\ less b a = false.
Proof.
  unfold equivb. rewrite andb_true_iff, !negb_true_iff. tauto.
Qed.

Lemma less_not_equiv a b : less a b = true -> equivb less a b = false.
Proof. intros H. unfold equivb. now rewrite H. Qed.

Lemma greater_not_equiv a b : less b a = true -> equivb less a b = false.
Proof. intros H. unfold equivb. rewrite H. apply andb_false_r. Qed.

(** Equivalent values compare alike against a third one. *)
Lemma less_equiv_l a b c :
  equivb less a b = true -> less b c = true -> less a c = true.
Proof.
  intros Hab Hbc. destruct (less a c) eqn:Hac; [reflexivity|].
  destruct (less c a) eqn:Hca.
  - assert (Hba : less b a = true) by (eapply (less_trans less); eauto).
    apply equivb_true in Hab. destruct Hab; congruence.
  - assert (Hbc' : equivb less b c = true).
    { eapply (equiv_trans less); [rewrite equivb_sym; exact Hab|].
      apply equivb_true; auto. }
    rewrite (less_not_equiv _ _ Hbc) in Hbc'. discriminate.
Qed.

Lemma less_equiv_r a b c :
  equivb less a b = true -> less c b = true -> less c a = true.
Proof.
  intros Hab Hcb. destruct (less c a) eqn:Hca; [reflexivity|].
  destruct (less a c) eqn:Hac.
  - assert (Hab' : less a b = true) by (eapply (less_trans less); eauto).
    apply equivb_true in Hab. destruct Hab; congruence.
  - assert (Hcb' : equivb less c b = true).
    { eapply (equiv_trans less); [|exact Hab]. apply equivb_true; auto. }
    rewrite (less_not_equiv _ _ Hcb) in Hcb'. discriminate.
Qed.

End OrderFacts.

(** ** The traversals *)

Section Traversals.

Context {T : Type}.
Local Abbreviation ptr := (TreeNodePtr T).

Lemma in_order_rec_spec (p : ptr) acc :
  in_order_rec p acc = acc ++ inorder p.
Proof.
  revert acc. induction p as [|d l IHl r IHr]; intros acc; simpl.
  - now rewrite app_nil_r.
  - rewrite IHr, IHl, <- !app_assoc. reflexivity.
Qed.

Lemma pre_order_rec_spec (p : ptr) acc :
  pre_order_rec p acc = acc ++ preorder p.
Proof.
  revert acc. induction p as [|d l IHl r IHr]; intros acc; simpl.
  - now rewrite app_nil_r.
  - rewrite IHr, IHl, <- !app_assoc. reflexivity.
Qed.

Lemma post_order_rec_spec (p : ptr) acc :
  post_order_rec p acc = acc ++ postorder p.
Proof.
  revert acc. induction p as [|d l IHl r IHr]; intros acc; simpl.
  - now rewrite app_nil_r.
  - rewrite IHr, IHl, <- !app_assoc. reflexivity.
Qed.

Lemma in_order_root (t : BST T) : in_order t = inorder (root t).
Proof. unfold in_order. now rewrite in_order_rec_spec. Qed.

Lemma pre_order_root (t : BST T) : pre_order t = preorder (root t).
Proof. unfold pre_order. now rewrite pre_order_rec_spec. Qed.

Lemma post_order_root (t : BST T) : post_order t = postorder (root t).
Proof. unfold post_order. now rewrite post_order_rec_spec. Qed.

Lemma preorder_inorder (p : ptr) : Permutation (preorder p) (inorder p).
Proof.
  induction p as [|d l IHl r IHr]; simpl; [constructor|].
  apply Permutation_cons_app. now apply Permutation_app.
Qed.

Lemma postorder_inorder (p : ptr) : Permutation (postorder p) (inorder p).
Proof.
  induction p as [|d l IHl r IHr]; simpl; [constructor|].
  apply Permutation_app; [assumption|].
  rewrite <- Permutation_cons_append. now constructor.
Qed.

Lemma all_values_forallb f (p : ptr) :
  all_values f p = forallb f (inorder p).
Proof.
  induction p as [|d l IHl r IHr]; simpl; [reflexivity|].
  rewrite forallb_app. simpl. rewrite IHl, IHr.
  destruct (f d), (forallb f (inorder l)); reflexivity.
Qed.

Lemma all_values_In f (p : ptr) :
  all_values f p = true <-> forall x, In x (inorder p) -> f x = true.
Proof. rewrite all_values_forallb. apply forallb_forall. Qed.

Lemma inorder_node_count (p : ptr) : length (inorder p) = node_count p.
Proof.
  induction p as [|d l IHl r IHr]; simpl; [reflexivity|].
  rewrite length_app. simpl. lia.
Qed.

End Traversals.

(** ** The descent, for an arbitrary comparison *)

Section Descent.

Context {T : Type} (less : T -> T -> bool).
Local Abbreviation ptr := (TreeNodePtr T).

Lemma is_bst_node d (l r : ptr) :
  is_bst less (TreeNode d l r) = true <->
  (forall x, In x (inorder l) -> less x d = true) /\
  (forall x, In x (inorder r) -> less d x = true) /\
  is_bst less l = true /\ is_bst less r = true.
Proof.
  change (is_bst less (TreeNode d l r))
    with (all_values (fun x => less x d) l
          && all_values (fun x => less d x) r
          && is_bst less l && is_bst less r).
  rewrite !andb_true_iff, !all_values_In. tauto.
Qed.

Lemma min_node d (l r : ptr) :
  exists m mr, min (TreeNode d l r) = TreeNode m nullptr mr.
Proof.
  revert d r. induction l as [|d' l' IHl r' _]; intros d r.
  - now exists d, r.
  - destruct (IHl d' r') as (m & mr & E).
    exists m, mr. exact E.
Qed.

(** The minimum node is visited first by the in-order traversal. *)
Lemma min_inorder (p : ptr) m ml mr :
  min p = TreeNode m ml mr ->
  ml = nullptr /\ exists rest, inorder p = m :: rest.
Proof.
  induction p as [|d l IHl r _]; [discriminate|].
  destruct l as [|d' l' r'].
  - simpl. intros [= <- <- <-]. split; [reflexivity|]. now exists (inorder r).
  - intros E. change (min (TreeNode d' l' r') = TreeNode m ml mr) in E.
    destruct (IHl E) as [-> (rest & Hrest)]. split; [reflexivity|].
    exists (rest ++ d :: inorder r).
    change (inorder (TreeNode d (TreeNode d' l' r') r))
      with (inorder (TreeNode d' l' r') ++ d :: inorder r).
    now rewrite Hrest.
Qed.

Lemma min_node_in (p : ptr) m ml mr :
  min p = TreeNode m ml mr -> node_in (TreeNode m ml mr) p.
Proof.
  induction p as [|d l IHl r _]; [discriminate|].
  destruct l as [|d' l' r'].
  - simpl. intros [= <- <- <-]. constructor.
  - intros E. apply node_in_left. apply IHl. exact E.
Qed.

(** [insert] succeeds exactly when [contain] fails. *)
Lemma insert_fst (p : ptr) v : fst (insert less p v) = negb (contain less p v).
Proof.
  induction p as [|d l IHl r IHr]; simpl; [reflexivity|].
  destruct (less v d).
  - destruct (insert less l v); exact IHl.
  - destruct (less d v); [|reflexivity].
    destruct (insert less r v); exact IHr.
Qed.

Lemma insert_present (p : ptr) v :
  contain less p v = true -> insert less p v = (false, p).
Proof.
  induction p as [|d l IHl r IHr]; simpl; [discriminate|].
  destruct (less v d).
  - intros H. now rewrite (IHl H).
  - destruct (less d v); [|reflexivity].
    intros H. now rewrite (IHr H).
Qed.

Lemma insert_new_leaf (p : ptr) v :
  contain less p v = false -> new_leaf v p (snd (insert less p v)).
Proof.
  induction p as [|d l IHl r IHr]; simpl; [constructor|].
  destruct (less v d).
  - intros H. specialize (IHl H). destruct (insert less l v).
    now apply new_leaf_left.
  - destruct (less d v); [|discriminate].
    intros H. specialize (IHr H). destruct (insert less r v).
    now apply new_leaf_right.
Qed.

Lemma new_leaf_inorder v (p p' : ptr) :
  new_leaf v p p' ->
  exists l1 l2, inorder p = l1 ++ l2 /\ inorder p' = l1 ++ v :: l2.
Proof.
  induction 1 as [|d l l' r _ (l1 & l2 & E & E')|d l r r' _ (l1 & l2 & E & E')].
  - now exists [], [].
  - exists l1, (l2 ++ d :: inorder r). simpl.
    rewrite E, E', <- !app_assoc. auto.
  - exists (inorder l ++ d :: l1), l2. simpl.
    rewrite E, E', <- !app_assoc. auto.
Qed.

Lemma new_leaf_node_count v (p p' : ptr) :
  new_leaf v p p' -> node_count p' = S (node_count p).
Proof. induction 1; simpl; lia. Qed.

Lemma insert_all_values f (p : ptr) v :
  f v = true -> all_values f p = true ->
  all_values f (snd (insert less p v)) = true.
Proof.
  intros Hv. induction p as [|d l IHl r IHr]; simpl.
  - intros _. now rewrite Hv.
  - intros H. split_andb.
    destruct (less v d).
    + specialize (IHl ltac:(assumption)). destruct (insert less l v).
      simpl in *. now join_andb.
    + destruct (less d v).
      * specialize (IHr ltac:(assumption)). destruct (insert less r v).
        simpl in *. now join_andb.
      * simpl. now join_andb.
Qed.

(** Insertion keeps the invariant; the comparisons made on the way
    down are exactly what the new leaf needs. *)
Lemma insert_is_bst (p : ptr) v :
  is_bst less p = true -> is_bst less (snd (insert less p v)) = true.
Proof.
  induction p as [|d l IHl r IHr]; simpl; [reflexivity|].
  intros H. split_andb.
  destruct (less v d) eqn:Hvd.
  - specialize (IHl ltac:(assumption)).
    pose proof (insert_all_values (fun x => less x d) l v Hvd
                  ltac:(assumption)) as Hall.
    destruct (insert less l v). simpl in *. now join_andb.
  - destruct (less d v) eqn:Hdv.
    + specialize (IHr ltac:(assumption)).
      pose proof (insert_all_values (fun x => less d x) r v Hdv
                    ltac:(assumption)) as Hall.
      destruct (insert less r v). simpl in *. now join_andb.
    + simpl. now join_andb.
Qed.

(** [find_node] and [contain] make the same comparisons. *)
Lemma contain_find_node (p : ptr) v :
  contain less p v = negb (is_null (find_node less p v)).
Proof.
  induction p as [|d l IHl r IHr]; simpl; [reflexivity|].
  destruct (less v d); [exact IHl|].
  destruct (less d v); [exact IHr|reflexivity].
Qed.

Lemma find_node_match (p : ptr) v d l r :
  find_node less p v = TreeNode d l r ->
  less v d = false /\ less d v = false.
Proof.
  induction p as [|d' l' IHl r' IHr]; simpl; [discriminate|].
  destruct (less v d') eqn:E1; [exact IHl|].
  destruct (less d' v) eqn:E2; [exact IHr|].
  intros [= <- <- <-]. auto.
Qed.

Lemma find_node_in (p : ptr) v d l r :
  find_node less p v = TreeNode d l r -> node_in (TreeNode d l r) p.
Proof.
  induction p as [|d' l' IHl r' IHr]; simpl; [discriminate|].
  destruct (less v d').
  - intros H. apply node_in_left. auto.
  - destruct (less d' v).
    + intros H. apply node_in_right. auto.
    + intros [= <- <- <-]. constructor.
Qed.

(** [remove] succeeds exactly when [contain] does. *)
Lemma remove_fst (p : ptr) v : fst (remove less p v) = contain less p v.
Proof.
  induction p as [|d l IHl r IHr]; simpl; [reflexivity|].
  destruct (less v d).
  - destruct (remove less l v); exact IHl.
  - destruct (less d v).
    + destruct (remove less r v); exact IHr.
    + destruct l; [reflexivity|]. destruct r; [reflexivity|].
      destruct (min _); reflexivity.
Qed.

Lemma remove_absent (p : ptr) v :
  contain less p v = false -> remove less p v = (false, p).
Proof.
  induction p as [|d l IHl r IHr]; simpl; [reflexivity|].
  destruct (less v d).
  - intros H. now rewrite (IHl H).
  - destruct (less d v); [|discriminate].
    intros H. now rewrite (IHr H).
Qed.

(** Without a comparison-equal element the descent never stops at a
    node. *)
Lemma contain_no_equiv (p : ptr) v :
  (forall x, In x (inorder p) -> equivb less v x = false) ->
  contain less p v = false.
Proof.
  induction p as [|d l IHl r IHr]; simpl; [reflexivity|].
  intros H.
  destruct (less v d) eqn:E1.
  - apply IHl. intros x Hx. apply H. apply in_or_app. now left.
  - destruct (less d v) eqn:E2.
    + apply IHr. intros x Hx. apply H. apply in_or_app. right. now right.
    + specialize (H d ltac:(apply in_or_app; right; now left)).
      unfold equivb in H. rewrite E1, E2 in H. discriminate.
Qed.

(** The two splice cases and the two-children case, in terms of the
    node the descent stops at. *)
Lemma remove_no_left (p : ptr) v d r :
  find_node less p v = TreeNode d nullptr r ->
  remove less p v = (true, replace_found less r p v).
Proof.
  induction p as [|d' l' IHl r' IHr]; simpl; [discriminate|].
  destruct (less v d').
  - intros H. now rewrite (IHl H).
  - destruct (less d' v).
    + intros H. now rewrite (IHr H).
    + now intros [= -> -> ->].
Qed.

Lemma remove_no_right (p : ptr) v d d' l' r' :
  find_node less p v = TreeNode d (TreeNode d' l' r') nullptr ->
  remove less p v = (true, replace_found less (TreeNode d' l' r') p v).
Proof.
  induction p as [|e l IHl r IHr]; simpl; [discriminate|].
  destruct (less v e).
  - intros H. now rewrite (IHl H).
  - destruct (less e v).
    + intros H. now rewrite (IHr H).
    + now intros [= -> -> ->].
Qed.

Lemma remove_two_children (p : ptr) v d l r m ml mr :
  find_node less p v = TreeNode d l r ->
  is_null l = false -> is_null r = false ->
  min r = TreeNode m ml mr ->
  remove less p v =
    (true,
     replace_found less (TreeNode m l (snd (remove less r m))) p v).
Proof.
  intros Hf Hl Hr Hm. revert Hf.
  induction p as [|e l' IHl r' IHr]; simpl; [discriminate|].
  destruct (less v e).
  - intros H. now rewrite (IHl H).
  - destruct (less e v).
    + intros H. now rewrite (IHr H).
    + intros [= -> -> ->].
      destruct l; [discriminate|]. destruct r; [discriminate|].
      now rewrite Hm.
Qed.

End Descent.

(** ** Sorted lists *)

Section SortedLists.

Context {A : Type} (R : A -> A -> Prop).

Lemma sorted_app (l1 l2 : list A) :
  StronglySorted R (l1 ++ l2) <->
  StronglySorted R l1 /\ StronglySorted R l2 /\
  (forall a b, In a l1 -> In b l2 -> R a b).
Proof.
  induction l1 as [|x l1 IH]; simpl.
  - split; [intros H; repeat split; [constructor|assumption|tauto]|tauto].
  - split.
    + intros H. inversion H as [|? ? Hs Hall]; subst.
      apply IH in Hs. destruct Hs as (S1 & S2 & Hc).
      rewrite Forall_app in Hall. destruct Hall as [F1 F2].
      repeat split; [now constructor|assumption|].
      intros a b [<-|Ha] Hb; [|now apply Hc].
      rewrite Forall_forall in F2. now apply F2.
    + intros (S1 & S2 & Hc). inversion S1 as [|? ? Hs Hall]; subst.
      constructor.
      * apply IH. repeat split; auto.
      * rewrite Forall_app. split; [assumption|].
        apply Forall_forall. intros b Hb. apply Hc; auto.
Qed.

Lemma sorted_filter f (l : list A) :
  StronglySorted R l -> StronglySorted R (filter f l).
Proof.
  induction 1 as [|x l _ IH Hall]; simpl; [constructor|].
  destruct (f x); [|assumption].
  constructor; [assumption|].
  rewrite Forall_forall in *. intros y Hy. apply filter_In in Hy.
  apply Hall. tauto.
Qed.

Lemma sorted_NoDup (l : list A) :
  (forall a, ~ R a a) -> StronglySorted R l -> NoDup l.
Proof.
  intros Hirr. induction 1 as [|x l _ IH Hall]; constructor; [|assumption].
  intros Hin. rewrite Forall_forall in Hall. exact (Hirr x (Hall x Hin)).
Qed.

Lemma filter_all (f : A -> bool) (l : list A) :
  (forall x, In x l -> f x = true) -> filter f l = l.
Proof.
  induction l as [|x l IH]; simpl; [reflexivity|].
  intros H. rewrite (H x (or_introl eq_refl)). f_equal. auto.
Qed.

End SortedLists.

(** ** The invariant, under the ordering contract *)

Section Invariant.

Context {T : Type} (less : T -> T -> bool) `{!StrictWeakOrder less}.
Local Abbreviation ptr := (TreeNodePtr T).

(** The invariant says that the in-order listing is strictly
    ascending, and conversely. *)
Lemma is_bst_sorted (p : ptr) :
  is_bst less p = true -> strictly_ascending less (inorder p).
Proof.
  unfold strictly_ascending.
  induction p as [|d l IHl r IHr]; simpl; [constructor|].
  intros H. split_andb.
  match goal with
  | Hl : all_values _ l = true, Hr : all_values _ r = true |- _ =>
      rewrite all_values_In in Hl, Hr; rename Hl into Lo, Hr into Hi
  end.
  apply sorted_app. repeat split; [auto| |].
  - constructor; [auto|]. apply Forall_forall. exact Hi.
  - intros a b Ha [<-|Hb]; [now apply Lo|].
    apply (less_trans less a d b); auto.
Qed.

Lemma sorted_is_bst (p : ptr) :
  strictly_ascending less (inorder p) -> is_bst less p = true.
Proof.
  unfold strictly_ascending.
  induction p as [|d l IHl r IHr]; simpl; [reflexivity|].
  intros H. apply sorted_app in H. destruct H as (Sl & Sr & Hc).
  inversion Sr as [|? ? Sr' Hall]; subst.
  join_andb; auto.
  - apply all_values_In. intros x Hx. apply Hc; simpl; auto.
  - apply all_values_In. now apply Forall_forall.
Qed.

Lemma is_bst_NoDup (p : ptr) : is_bst less p = true -> NoDup (inorder p).
Proof.
  intros H. apply is_bst_sorted in H.
  eapply sorted_NoDup; [|exact H].
  intros a Ha. now rewrite (less_irrefl less) in Ha.
Qed.

(** Under the invariant, [contain] finds every comparison-equal
    element. *)
Lemma contain_equiv (p : ptr) v x :
  is_bst less p = true -> In x (inorder p) -> equivb less v x = true ->
  contain less p v = true.
Proof.
  intros Hb Hin Heq. revert Hb Hin.
  induction p as [|d l IHl r IHr]; simpl; [tauto|].
  intros H Hin. split_andb.
  match goal with
  | Hl : all_values _ l = true, Hr : all_values _ r = true |- _ =>
      rewrite all_values_In in Hl, Hr; rename Hl into Lo, Hr into Hi
  end.
  apply in_app_or in Hin.
  destruct (less v d) eqn:Hvd.
  - destruct Hin as [Hin|[<-|Hin]]; [auto| |].
    + rewrite (less_not_equiv less _ _ Hvd) in Heq. discriminate.
    + pose proof (less_equiv_r less _ _ _ Heq (Hi x Hin)) as Hdv.
      rewrite (less_asym less _ _ Hdv) in Hvd. discriminate.
  - destruct (less d v) eqn:Hdv; [|reflexivity].
    destruct Hin as [Hin|[<-|Hin]]; [| |auto].
    + pose proof (less_trans less x d v (Lo x Hin) Hdv) as Hxv.
      rewrite (greater_not_equiv less _ _ Hxv) in Heq. discriminate.
    + rewrite (greater_not_equiv less _ _ Hdv) in Heq. discriminate.
Qed.

Lemma contain_inserted (p : ptr) v :
  contain less (snd (insert less p v)) v = true.
Proof.
  induction p as [|d l IHl r IHr]; simpl.
  - now rewrite (less_irrefl less).
  - destruct (less v d) eqn:Hvd.
    + destruct (insert less l v). simpl in *. now rewrite Hvd.
    + destruct (less d v) eqn:Hdv.
      * destruct (insert less r v). simpl in *. now rewrite Hvd, Hdv.
      * simpl. now rewrite Hvd, Hdv.
Qed.

(** What [remove] does to the in-order listing: the comparison-equal
    element goes, the others stay where they are. *)
Lemma remove_inorder (p : ptr) v :
  is_bst less p = true ->
  inorder (snd (remove less p v)) =
    filter (fun x => negb (equivb less v x)) (inorder p).
Proof.
  revert v. induction p as [|d l IHl r IHr]; intros v; [reflexivity|].
  intros Hb. simpl in Hb. split_andb.
  match goal with
  | Hl : all_values _ l = true, Hr : all_values _ r = true |- _ =>
      rewrite all_values_In in Hl, Hr; rename Hl into Lo, Hr into Hi
  end.
  simpl. rewrite filter_app. simpl.
  destruct (less v d) eqn:Hvd.
  - rewrite (less_not_equiv less _ _ Hvd). simpl.
    rewrite (filter_all _ (inorder r)).
    + rewrite <- IHl by assumption. now destruct (remove less l v).
    + intros x Hx. apply negb_true_iff, less_not_equiv.
      apply (less_trans less v d x); auto.
  - destruct (less d v) eqn:Hdv.
    + rewrite (greater_not_equiv less _ _ Hdv). simpl.
      rewrite (filter_all _ (inorder l)).
      * rewrite <- IHr by assumption. now destruct (remove less r v).
      * intros x Hx. apply negb_true_iff, greater_not_equiv.
        apply (less_trans less x d v); auto.
    + assert (Heq : equivb less v d = true) by (apply equivb_true; auto).
      rewrite Heq. simpl.
      rewrite (filter_all _ (inorder l)), (filter_all _ (inorder r)).
      * destruct l as [|dl ll rl]; [reflexivity|].
        destruct r as [|dr lr rr]; [simpl; now rewrite app_nil_r|].
        destruct (min_node dr lr rr) as (m & mr & Hm). rewrite Hm.
        destruct (min_inorder _ _ _ _ Hm) as [_ (rest & Hrest)].
        change (inorder (snd (true, TreeNode m (TreeNode dl ll rl)
                           (snd (remove less (TreeNode dr lr rr) m)))))
          with (inorder (TreeNode dl ll rl) ++
                  m :: inorder (snd (remove less (TreeNode dr lr rr) m))).
        rewrite IHr by assumption. rewrite Hrest. simpl.
        rewrite equivb_refl by assumption. simpl.
        rewrite filter_all; [reflexivity|].
        intros x Hx. apply negb_true_iff, less_not_equiv.
        assert (Hsr : strictly_ascending less (inorder (TreeNode dr lr rr)))
          by (apply is_bst_sorted; assumption).
        unfold strictly_ascending in Hsr. rewrite Hrest in Hsr.
        inversion Hsr as [|? ? _ Hall]; subst.
        rewrite Forall_forall in Hall. auto.
      * intros x Hx. apply negb_true_iff, less_not_equiv.
        apply (less_equiv_l less v d x); auto.
      * intros x Hx. apply negb_true_iff, greater_not_equiv.
        apply (less_equiv_r less v d x); auto.
Qed.

Lemma remove_is_bst (p : ptr) v :
  is_bst less p = true -> is_bst less (snd (remove less p v)) = true.
Proof.
  intros Hb. apply sorted_is_bst. unfold strictly_ascending.
  rewrite remove_inorder by assumption.
  apply sorted_filter. now apply is_bst_sorted.
Qed.

Lemma node_in_is_bst (s p : ptr) :
  node_in s p -> is_bst less p = true -> is_bst less s = true.
Proof.
  induction 1 as [d l r|s d l r _ IH|s d l r _ IH]; [tauto| |];
    simpl; intros H; split_andb; auto.
Qed.

Lemma node_in_inorder (d : T) (l r p : ptr) :
  node_in (TreeNode d l r) p -> In d (inorder p).
Proof.
  remember (TreeNode d l r) as s eqn:Es.
  induction 1 as [d' l' r'|s d' l' r' _ IH|s d' l' r' _ IH]; simpl.
  - injection Es as -> -> ->. apply in_or_app. right. now left.
  - apply in_or_app. left. auto.
  - apply in_or_app. right. right. auto.
Qed.

(** Looking the successor's value up again leads to the successor
    node itself, which has no left child. *)
Lemma find_node_min (p : ptr) m ml mr :
  is_bst less p = true -> min p = TreeNode m ml mr ->
  find_node less p m = TreeNode m ml mr.
Proof.
  induction p as [|d l IHl r _]; [discriminate|].
  intros Hb Hm. destruct l as [|dl ll rl].
  - simpl in Hm. injection Hm as -> -> ->.
    simpl. now rewrite (less_irrefl less).
  - change (min (TreeNode dl ll rl) = TreeNode m ml mr) in Hm.
    destruct (min_inorder _ _ _ _ Hm) as [_ (rest & Hrest)].
    apply is_bst_node in Hb. destruct Hb as (Lo & _ & Hbl & _).
    assert (Hmd : less m d = true).
    { apply Lo. rewrite Hrest. now left. }
    change (find_node less (TreeNode d (TreeNode dl ll rl) r) m)
      with (if less m d then find_node less (TreeNode dl ll rl) m
            else if less d m then find_node less r m
                 else TreeNode d (TreeNode dl ll rl) r).
    rewrite Hmd. apply IHl; [exact Hbl|exact Hm].
Qed.

(** Removing the minimum drops the head of the in-order listing. *)
Lemma remove_min_inorder (p : ptr) m ml mr :
  is_bst less p = true -> min p = TreeNode m ml mr ->
  inorder p = m :: inorder (snd (remove less p m)) /\
  forall x, In x (inorder (snd (remove less p m))) -> less m x = true.
Proof.
  intros Hb Hm.
  destruct (min_inorder _ _ _ _ Hm) as [_ (rest & Hrest)].
  pose proof (is_bst_sorted _ Hb) as Hs.
  unfold strictly_ascending in Hs. rewrite Hrest in Hs.
  inversion Hs as [|? ? _ Hall]; subst. rewrite Forall_forall in Hall.
  rewrite remove_inorder, Hrest by assumption. simpl.
  rewrite equivb_refl by assumption. simpl.
  rewrite filter_all; [auto|].
  intros x Hx. apply negb_true_iff, less_not_equiv. auto.
Qed.

(** Under the invariant, removal takes exactly the comparison-equal
    element out of the in-order listing. *)
Lemma remove_splits (p : ptr) v x :
  is_bst less p = true -> In x (inorder p) -> equivb less v x = true ->
  exists l1 l2,
    inorder p = l1 ++ x :: l2 /\
    inorder (snd (remove less p v)) = l1 ++ l2.
Proof.
  intros Hb Hin Heq.
  destruct (in_split _ _ Hin) as (l1 & l2 & E).
  exists l1, l2. split; [exact E|].
  pose proof (is_bst_sorted _ Hb) as Hs.
  unfold strictly_ascending in Hs. rewrite E in Hs.
  apply sorted_app in Hs. destruct Hs as (_ & Hs & Hc).
  inversion Hs as [|? ? _ Hall]; subst. rewrite Forall_forall in Hall.
  rewrite remove_inorder, E, filter_app by assumption. simpl.
  rewrite Heq. simpl.
  rewrite (filter_all _ l1), (filter_all _ l2); [reflexivity| |].
  - intros y Hy. apply negb_true_iff, less_not_equiv.
    apply (less_equiv_l less v x y); auto.
  - intros y Hy. apply negb_true_iff, greater_not_equiv.
    apply (less_equiv_r less v x y); auto. apply Hc; simpl; auto.
Qed.

(** A successful [contain] is witnessed by a stored element. *)
Lemma contain_sound (p : ptr) v :
  contain less p v = true ->
  exists x, In x (inorder p) /\ equivb less v x = true.
Proof.
  rewrite contain_find_node.
  destruct (find_node less p v) as [|d l r] eqn:E; [discriminate|].
  intros _. exists d. split.
  - eapply node_in_inorder, find_node_in, E.
  - apply equivb_true. eapply find_node_match, E.
Qed.

(** The invariant along a run of public operations. *)
Lemma run_inv (ops : list (Op T)) (t : BST T) :
  BST_inv less t = true -> BST_inv less (run less ops t) = true.
Proof.
  revert t. induction ops as [|o ops IH]; intros t Ht; [exact Ht|].
  simpl. apply IH. destruct o as [v|v]; simpl.
  - unfold BST_insert, BST_inv.
    pose proof (insert_is_bst less (root t) v Ht) as H.
    now destruct (insert less (root t) v).
  - unfold BST_remove, BST_inv.
    pose proof (remove_is_bst (root t) v Ht) as H.
    now destruct (remove less (root t) v).
Qed.

End Invariant.

(** ** The orderings of the scenarios satisfy the contract *)

Lemma int_less_swo : StrictWeakOrder int_less.
Proof.
  unfold int_less. split.
  - intros a. apply Z.ltb_irrefl.
  - intros a b c. rewrite !Z.ltb_lt. lia.
  - intros a b c. unfold equivb.
    rewrite !andb_true_iff, !negb_true_iff, !Z.ltb_ge. lia.
Qed.

Lemma key_less_swo : StrictWeakOrder key_less.
Proof.
  unfold key_less. split.
  - intros a. apply Z.ltb_irrefl.
  - intros a b c. rewrite !Z.ltb_lt. lia.
  - intros a b c. unfold equivb.
    rewrite !andb_true_iff, !negb_true_iff, !Z.ltb_ge. lia.
Qed.

(** ** Properties of the public interface *)

Open Scope Z_scope.

(** C1. Whatever sequence of [insert] and [remove] calls is applied to
    a freshly constructed tree, the result satisfies the BST
    invariant, and [in_order()] on it is strictly ascending and has
    no duplicates. *)
Theorem ops_keep_invariant :
  forall (T : Type) (less : T -> T -> bool),
    StrictWeakOrder less ->
    forall ops : list (Op T),
      let t := run less ops BST_new in
      BST_inv less t = true /\
      strictly_ascending less (in_order t) /\
      NoDup (in_order t).
Proof.
  intros T less SWO ops t.
  assert (Ht : BST_inv less t = true) by (apply run_inv; auto).
  rewrite in_order_root. repeat split.
  - exact Ht.
  - now apply is_bst_sorted.
  - now apply (is_bst_NoDup less).
Qed.

Lemma ops_keep_invariant_witness :
  StrictWeakOrder int_less /\
  let t := run int_less
             [OpInsert 5; OpInsert 3; OpRemove 5; OpInsert 8; OpInsert 3;
              OpRemove 4; OpInsert 1]
             BST_new in
  BST_inv int_less t = true /\
  strictly_ascending int_less (in_order t) /\
  NoDup (in_order t).
Proof.
  split; [exact int_less_swo|].
  exact (ops_keep_invariant Z int_less int_less_swo
           [OpInsert 5; OpInsert 3; OpRemove 5; OpInsert 8; OpInsert 3;
            OpRemove 4; OpInsert 1]).
Defined.

(** C2. In a tree satisfying the invariant, when [remove(v)] stops at
    a node with two children it puts the value [m] of the in-order
    successor (the minimum of the right subtree, the least stored
    value above the node's) into that node, keeps the node's place and
    left subtree, and removes [m] from the right subtree; that inner
    removal stops at the successor node, which has no left child, so
    it is the splice of the first case.  After inserting
    5,3,8,1,4,7,9, [remove(5)] returns true and [in_order()] is
    [1,3,4,7,8,9]. *)
Theorem remove_two_children_uses_successor :
  (forall (T : Type) (less : T -> T -> bool),
      StrictWeakOrder less ->
      forall (t : BST T) (v d : T) (l r : TreeNodePtr T),
        BST_inv less t = true ->
        BST_find_node less t v = TreeNode d l r ->
        is_null l = false -> is_null r = false ->
        exists m mr,
          min r = TreeNode m nullptr mr /\
          less d m = true /\
          (forall x, In x (inorder r) -> x = m \/ less m x = true) /\
          BST_remove less t v =
            (true,
             mkBST (replace_found less
                      (TreeNode m l (snd (remove less r m))) (root t) v)) /\
          find_node less r m = TreeNode m nullptr mr /\
          remove less r m = (true, replace_found less mr r m) /\
          inorder r = m :: inorder (snd (remove less r m)))
  /\
  (let t := insert_all int_less [5; 3; 8; 1; 4; 7; 9] in
   fst (BST_remove int_less t 5) = true /\
   in_order (snd (BST_remove int_less t 5)) = [1; 3; 4; 7; 8; 9]).
Proof.
  split; [|split; reflexivity].
  intros T less SWO t v d l r Hinv Hfind Hl Hr.
  unfold BST_inv, BST_find_node in *.
  destruct r as [|dr lr rr]; [discriminate|].
  destruct (min_node dr lr rr) as (m & mr & Hm).
  assert (Hnode : is_bst less (TreeNode d l (TreeNode dr lr rr)) = true).
  { eapply node_in_is_bst; [|exact Hinv]. eapply find_node_in, Hfind. }
  apply is_bst_node in Hnode. destruct Hnode as (_ & Hi & _ & Hbr).
  destruct (remove_min_inorder less _ _ _ _ Hbr Hm) as [Hrest Hmin].
  pose proof (find_node_min less _ _ _ _ Hbr Hm) as Hfm.
  exists m, mr. repeat split.
  - exact Hm.
  - apply Hi. rewrite Hrest. now left.
  - intros x Hx. rewrite Hrest in Hx. destruct Hx as [<-|Hx]; auto.
  - unfold BST_remove.
    now rewrite (remove_two_children less _ _ _ _ _ _ _ _ Hfind Hl Hr Hm).
  - exact Hfm.
  - exact (remove_no_left less _ _ _ _ Hfm).
  - exact Hrest.
Qed.

Lemma remove_two_children_uses_successor_witness :
  let t := insert_all int_less [5; 3; 8; 1; 4; 7; 9] in
  let l := TreeNode 3 (TreeNode 1 nullptr nullptr) (TreeNode 4 nullptr nullptr) in
  let r := TreeNode 8 (TreeNode 7 nullptr nullptr) (TreeNode 9 nullptr nullptr) in
  StrictWeakOrder int_less /\
  BST_inv int_less t = true /\
  BST_find_node int_less t 5 = TreeNode 5 l r /\
  is_null l = false /\ is_null r = false /\
  exists m mr,
    min r = TreeNode m nullptr mr /\
    int_less 5 m = true /\
    (forall x, In x (inorder r) -> x = m \/ int_less m x = true) /\
    BST_remove int_less t 5 =
      (true,
       mkBST (replace_found int_less
                (TreeNode m l (snd (remove int_less r m))) (root t) 5)) /\
    find_node int_less r m = TreeNode m nullptr mr /\
    remove int_less r m = (true, replace_found int_less mr r m) /\
    inorder r = m :: inorder (snd (remove int_less r m)).
Proof.
  intros t l r.
  split; [exact int_less_swo|].
  split; [reflexivity|]. split; [reflexivity|].
  split; [reflexivity|]. split; [reflexivity|].
  exact (proj1 remove_two_children_uses_successor Z int_less int_less_swo
           t 5 5 l r eq_refl eq_refl eq_refl eq_refl).
Defined.

(** ** The public wrappers in terms of the recursive functions *)

Section Interface.

Context {T : Type} (less : T -> T -> bool).

Lemma BST_insert_fst (t : BST T) v :
  fst (BST_insert less t v) = fst (insert less (root t) v).
Proof. unfold BST_insert. now destruct (insert less (root t) v). Qed.

Lemma BST_insert_root (t : BST T) v :
  root (snd (BST_insert less t v)) = snd (insert less (root t) v).
Proof. unfold BST_insert. now destruct (insert less (root t) v). Qed.

Lemma BST_remove_fst (t : BST T) v :
  fst (BST_remove less t v) = fst (remove less (root t) v).
Proof. unfold BST_remove. now destruct (remove less (root t) v). Qed.

Lemma BST_remove_root (t : BST T) v :
  root (snd (BST_remove less t v)) = snd (remove less (root t) v).
Proof. unfold BST_remove. now destruct (remove less (root t) v). Qed.

Lemma In_pre_order (t : BST T) x : In x (pre_order t) <-> In x (in_order t).
Proof.
  rewrite pre_order_root, in_order_root.
  split; apply Permutation_in;
    [|apply Permutation_sym]; apply preorder_inorder.
Qed.

Lemma In_post_order (t : BST T) x : In x (post_order t) <-> In x (in_order t).
Proof.
  rewrite post_order_root, in_order_root.
  split; apply Permutation_in;
    [|apply Permutation_sym]; apply postorder_inorder.
Qed.

End Interface.

(** C3. In a tree satisfying the invariant that stores an element [x]
    comparison-equal to [v], [remove(v)] returns true and keeps the
    invariant; nothing comparison-equal to [v] is left in any
    traversal; [in_order()] afterwards is [in_order()] before with
    [x] taken out, so every other value stays, in the same relative
    order, and is still met by all three traversals. *)
Theorem remove_present_value :
  forall (T : Type) (less : T -> T -> bool),
    StrictWeakOrder less ->
    forall (t : BST T) (v x : T),
      BST_inv less t = true ->
      In x (in_order t) -> equivb less v x = true ->
      let t' := snd (BST_remove less t v) in
      fst (BST_remove less t v) = true /\
      BST_inv less t' = true /\
      (exists l1 l2,
          in_order t = l1 ++ x :: l2 /\ in_order t' = l1 ++ l2) /\
      in_order t' = filter (fun y => negb (equivb less v y)) (in_order t) /\
      (forall y,
          In y (in_order t') \/ In y (pre_order t') \/ In y (post_order t') ->
          equivb less v y = false) /\
      (forall y,
          In y (in_order t) -> equivb less v y = false ->
          In y (in_order t') /\ In y (pre_order t') /\ In y (post_order t')).
Proof.
  intros T less SWO t v x Hinv Hin Heq t'.
  assert (Hfilter :
           in_order t' = filter (fun y => negb (equivb less v y)) (in_order t)).
  { subst t'. rewrite !in_order_root, BST_remove_root.
    now apply remove_inorder. }
  unfold BST_inv in *. rewrite in_order_root in Hin.
  repeat split.
  - rewrite BST_remove_fst, remove_fst. eapply contain_equiv; eauto.
  - subst t'. rewrite BST_remove_root. now apply remove_is_bst.
  - subst t'. rewrite !in_order_root, BST_remove_root.
    now apply remove_splits.
  - exact Hfilter.
  - intros y Hy. rewrite In_pre_order, In_post_order in Hy.
    assert (Hy' : In y (in_order t')) by tauto.
    rewrite Hfilter in Hy'. apply filter_In in Hy'.
    now apply negb_true_iff.
  - rewrite Hfilter. apply filter_In. split; [assumption|].
    now apply negb_true_iff.
  - rewrite In_pre_order, Hfilter. apply filter_In. split; [assumption|].
    now apply negb_true_iff.
  - rewrite In_post_order, Hfilter. apply filter_In. split; [assumption|].
    now apply negb_true_iff.
Qed.

Lemma remove_present_value_witness :
  let t := insert_all key_less [(5, 0); (3, 1); (8, 2); (1, 3); (4, 4)] in
  let t' := snd (BST_remove key_less t (3, 9)) in
  StrictWeakOrder key_less /\
  BST_inv key_less t = true /\
  In (3, 1) (in_order t) /\ equivb key_less (3, 9) (3, 1) = true /\
  fst (BST_remove key_less t (3, 9)) = true /\
  BST_inv key_less t' = true /\
  (exists l1 l2,
      in_order t = l1 ++ (3, 1) :: l2 /\ in_order t' = l1 ++ l2) /\
  in_order t' =
    filter (fun y => negb (equivb key_less (3, 9) y)) (in_order t) /\
  (forall y,
      In y (in_order t') \/ In y (pre_order t') \/ In y (post_order t') ->
      equivb key_less (3, 9) y = false) /\
  (forall y,
      In y (in_order t) -> equivb key_less (3, 9) y = false ->
      In y (in_order t') /\ In y (pre_order t') /\ In y (post_order t')).
Proof.
  intros t t'.
  split; [exact key_less_swo|].
  split; [reflexivity|].
  split; [vm_compute; tauto|].
  split; [reflexivity|].
  exact (remove_present_value (Z * Z) key_less key_less_swo
           t (3, 9) (3, 1) eq_refl
           (or_intror (or_introl eq_refl)) eq_refl).
Defined.

(** C4. In a tree satisfying the invariant, [insert(v)] for a [v]
    that is comparison-equal to a stored [x] (neither [v < x] nor
    [x < v]; [v] and [x] need not be equal) returns false and leaves
    the tree as it was. *)
Theorem insert_equivalent_rejected :
  forall (T : Type) (less : T -> T -> bool),
    StrictWeakOrder less ->
    forall (t : BST T) (v x : T),
      BST_inv less t = true ->
      In x (in_order t) ->
      less v x = false -> less x v = false ->
      BST_insert less t v = (false, t).
Proof.
  intros T less SWO t v x Hinv Hin Hvx Hxv.
  unfold BST_inv in Hinv. rewrite in_order_root in Hin.
  assert (Hc : contain less (root t) v = true).
  { eapply contain_equiv; eauto. apply equivb_true; auto. }
  unfold BST_insert. rewrite (insert_present less _ _ Hc).
  now destruct t.
Qed.

Lemma insert_equivalent_rejected_witness :
  let t := insert_all key_less [(5, 0); (3, 1); (8, 2)] in
  StrictWeakOrder key_less /\
  BST_inv key_less t = true /\
  In (3, 1) (in_order t) /\
  key_less (3, 9) (3, 1) = false /\ key_less (3, 1) (3, 9) = false /\
  (3, 9) <> (3, 1) /\
  BST_insert key_less t (3, 9) = (false, t).
Proof.
  intros t.
  split; [exact key_less_swo|].
  split; [reflexivity|].
  split; [vm_compute; tauto|].
  split; [reflexivity|]. split; [reflexivity|].
  split; [discriminate|].
  exact (insert_equivalent_rejected (Z * Z) key_less key_less_swo
           t (3, 9) (3, 1) eq_refl
           (or_introl eq_refl) eq_refl eq_refl).
Defined.

(** C5. When no stored value is comparison-equal to [v], [remove(v)]
    returns false and the tree, hence [in_order()], is unchanged (the
    invariant is not even needed for this); on an empty tree
    [contain(x)] and [remove(x)] return false for every [x]. *)
Theorem remove_absent_value :
  (forall (T : Type) (less : T -> T -> bool) (t : BST T) (v : T),
      (forall x, In x (in_order t) -> equivb less v x = false) ->
      BST_remove less t v = (false, t) /\
      in_order (snd (BST_remove less t v)) = in_order t)
  /\
  (forall (T : Type) (less : T -> T -> bool) (x : T),
      BST_contain less BST_new x = false /\
      BST_remove less BST_new x = (false, BST_new)).
Proof.
  split.
  - intros T less t v Hno.
    assert (E : BST_remove less t v = (false, t)).
    { unfold BST_remove. rewrite remove_absent.
      - now destruct t.
      - apply contain_no_equiv. intros x Hx. apply Hno.
        now rewrite in_order_root. }
    now rewrite E.
  - intros T less x. split; reflexivity.
Qed.

Lemma remove_absent_value_witness :
  let t := insert_all int_less [5; 3; 8] in
  BST_inv int_less t = true /\
  (forall x, In x (in_order t) -> equivb int_less 4 x = false) /\
  BST_remove int_less t 4 = (false, t) /\
  in_order (snd (BST_remove int_less t 4)) = in_order t.
Proof.
  intros t.
  assert (Hno : forall x, In x (in_order t) -> equivb int_less 4 x = false).
  { intros x Hx. vm_compute in Hx.
    destruct Hx as [<-|[<-|[<-|[]]]]; reflexivity. }
  split; [reflexivity|]. split; [exact Hno|].
  exact (proj1 remove_absent_value Z int_less t 4 Hno).
Defined.

(** C6. In a tree satisfying the invariant that does not contain [v],
    [insert(v)] returns true; the new tree is the old one with one
    absent child slot filled by a leaf holding [v] (one node and one
    element more, no stored value changed); the invariant still
    holds and [contain(v)] now returns true. *)
Theorem insert_fresh_value :
  forall (T : Type) (less : T -> T -> bool),
    StrictWeakOrder less ->
    forall (t : BST T) (v : T),
      BST_inv less t = true ->
      BST_contain less t v = false ->
      let t' := snd (BST_insert less t v) in
      fst (BST_insert less t v) = true /\
      new_leaf v (root t) (root t') /\
      node_count (root t') = S (node_count (root t)) /\
      (exists l1 l2,
          in_order t = l1 ++ l2 /\ in_order t' = l1 ++ v :: l2) /\
      length (in_order t') = S (length (in_order t)) /\
      BST_inv less t' = true /\
      BST_contain less t' v = true.
Proof.
  intros T less SWO t v Hinv Hc t'.
  unfold BST_inv, BST_contain in *.
  assert (Hleaf : new_leaf v (root t) (root t')).
  { subst t'. rewrite BST_insert_root. now apply insert_new_leaf. }
  repeat split.
  - rewrite BST_insert_fst, insert_fst, Hc. reflexivity.
  - exact Hleaf.
  - exact (new_leaf_node_count _ _ _ Hleaf).
  - rewrite !in_order_root. exact (new_leaf_inorder _ _ _ Hleaf).
  - rewrite !in_order_root, !inorder_node_count.
    exact (new_leaf_node_count _ _ _ Hleaf).
  - subst t'. rewrite BST_insert_root. now apply insert_is_bst.
  - subst t'. rewrite BST_insert_root. now apply contain_inserted.
Qed.

Lemma insert_fresh_value_witness :
  let t := insert_all int_less [5; 3; 8] in
  let t' := snd (BST_insert int_less t 4) in
  StrictWeakOrder int_less /\
  BST_inv int_less t = true /\
  BST_contain int_less t 4 = false /\
  fst (BST_insert int_less t 4) = true /\
  new_leaf 4 (root t) (root t') /\
  node_count (root t') = S (node_count (root t)) /\
  (exists l1 l2,
      in_order t = l1 ++ l2 /\ in_order t' = l1 ++ 4 :: l2) /\
  length (in_order t') = S (length (in_order t)) /\
  BST_inv int_less t' = true /\
  BST_contain int_less t' 4 = true.
Proof.
  intros t t'.
  split; [exact int_less_swo|].
  split; [reflexivity|]. split; [reflexivity|].
  exact (insert_fresh_value Z int_less int_less_swo t 4 eq_refl eq_refl).
Defined.

(** C7. On a non-empty tree [pre_order()] starts with the root's
    value and [post_order()] ends with it; after inserting 5,3,8,1,4
    the traversals are [1,3,4,5,8], [5,3,1,4,8] and [1,4,3,8,5]. *)
Theorem traversals_meet_root :
  (forall (T : Type) (d : T) (l r : TreeNodePtr T),
      let t := mkBST (TreeNode d l r) in
      hd_error (pre_order t) = Some d /\
      (exists rest, pre_order t = d :: rest) /\
      hd_error (rev (post_order t)) = Some d /\
      (exists front, post_order t = front ++ [d]))
  /\
  (let t := insert_all int_less [5; 3; 8; 1; 4] in
   in_order t = [1; 3; 4; 5; 8] /\
   pre_order t = [5; 3; 1; 4; 8] /\
   post_order t = [1; 4; 3; 8; 5]).
Proof.
  split; [|repeat split; reflexivity].
  intros T d l r t. subst t.
  rewrite pre_order_root, post_order_root. simpl.
  repeat split.
  - now exists (preorder l ++ preorder r).
  - now rewrite !rev_app_distr.
  - exists (postorder l ++ postorder r). now rewrite app_assoc.
Qed.

(** C8. [find_node(v)] returns the null pointer exactly when
    [contain(v)] returns false; otherwise it returns a node of the
    tree whose value is neither below nor above [v].  Both are pure
    reads of the tree making the same comparisons; the invariant is
    not needed. *)
Theorem find_node_agrees_with_contain :
  forall (T : Type) (less : T -> T -> bool) (t : BST T) (v : T),
    (BST_find_node less t v = nullptr <-> BST_contain less t v = false) /\
    BST_contain less t v = negb (is_null (BST_find_node less t v)) /\
    (forall d l r,
        BST_find_node less t v = TreeNode d l r ->
        less v d = false /\ less d v = false /\
        equivb less v d = true /\
        node_in (TreeNode d l r) (root t)).
Proof.
  intros T less t v. unfold BST_find_node, BST_contain.
  pose proof (contain_find_node less (root t) v) as E.
  split; [split|split].
  - intros H. now rewrite E, H.
  - intros H. rewrite H in E.
    destruct (find_node less (root t) v); [reflexivity|discriminate].
  - exact E.
  - intros d l r H.
    destruct (find_node_match less _ _ _ _ _ H) as [H1 H2].
    repeat split; [exact H1|exact H2| |].
    + unfold equivb. now rewrite H1, H2.
    + eapply find_node_in; eauto.
Qed.

(** C9. The three traversals of a tree are permutations of one
    another, and so have the same length. *)
Theorem traversals_permute :
  forall (T : Type) (t : BST T),
    Permutation (in_order t) (pre_order t) /\
    Permutation (in_order t) (post_order t) /\
    Permutation (pre_order t) (post_order t) /\
    length (in_order t) = length (pre_order t) /\
    length (in_order t) = length (post_order t).
Proof.
  intros T t. rewrite in_order_root, pre_order_root, post_order_root.
  pose proof (preorder_inorder (root t)) as Hpre.
  pose proof (postorder_inorder (root t)) as Hpost.
  repeat split.
  - now apply Permutation_sym.
  - now apply Permutation_sym.
  - eapply Permutation_trans; [exact Hpre|now apply Permutation_sym].
  - symmetry. now apply Permutation_length.
  - symmetry. now apply Permutation_length.
Qed.

(** C10. On a freshly constructed tree (null root) each traversal
    returns the empty sequence. *)
Theorem empty_tree_traversals :
  forall T : Type,
    root (@BST_new T) = nullptr /\
    in_order (@BST_new T) = [] /\
    pre_order (@BST_new T) = [] /\
    post_order (@BST_new T) = [].
Proof. intros T. repeat split. Qed.


(** * Further properties of the operations *)

(** ** Extreme nodes *)

Section Extremes.

Context {T : Type}.
Local Abbreviation ptr := (TreeNodePtr T).

Lemma max_node d (l r : ptr) :
  exists m ml, max (TreeNode d l r) = TreeNode m ml nullptr.
Proof.
  revert d l. induction r as [|d' l' _ r' IHr]; intros d l.
  - now exists d, l.
  - destruct (IHr d' l') as (m & ml & E).
    exists m, ml. exact E.
Qed.

(** The maximum node is visited last by the in-order traversal. *)
Lemma max_inorder (p : ptr) m ml mr :
  max p = TreeNode m ml mr ->
  mr = nullptr /\ exists front, inorder p = front ++ [m].
Proof.
  induction p as [|d l _ r IHr]; [discriminate|].
  destruct r as [|d' l' r'].
  - simpl. intros [= <- <- <-]. split; [reflexivity|]. now exists (inorder l).
  - intros E. change (max (TreeNode d' l' r') = TreeNode m ml mr) in E.
    destruct (IHr E) as [-> (front & Hfront)]. split; [reflexivity|].
    exists (inorder l ++ d :: front).
    change (inorder (TreeNode d l (TreeNode d' l' r')))
      with (inorder l ++ d :: inorder (TreeNode d' l' r')).
    rewrite Hfront, <- app_assoc. reflexivity.
Qed.

Lemma max_node_in (p : ptr) m ml mr :
  max p = TreeNode m ml mr -> node_in (TreeNode m ml mr) p.
Proof.
  induction p as [|d l _ r IHr]; [discriminate|].
  destruct r as [|d' l' r'].
  - simpl. intros [= <- <- <-]. constructor.
  - intros E. apply node_in_right. apply IHr. exact E.
Qed.

End Extremes.

(** X1. In a subtree satisfying the invariant, [min()] returns a node
    of that subtree without left child whose value comes first in the
    in-order traversal and is below every other stored value. *)
Theorem min_is_least :
  forall (T : Type) (less : T -> T -> bool),
    StrictWeakOrder less ->
    forall (d : T) (l r : TreeNodePtr T),
      is_bst less (TreeNode d l r) = true ->
      exists m mr rest,
        min (TreeNode d l r) = TreeNode m nullptr mr /\
        node_in (TreeNode m nullptr mr) (TreeNode d l r) /\
        in_order (mkBST (TreeNode d l r)) = m :: rest /\
        forall x, In x rest -> less m x = true.
Proof.
  intros T less SWO d l r Hb.
  destruct (min_node d l r) as (m & mr & Hm).
  destruct (min_inorder _ _ _ _ Hm) as [_ (rest & Hrest)].
  exists m, mr, rest. rewrite in_order_root. simpl root.
  repeat split; [exact Hm|now apply min_node_in|exact Hrest|].
  pose proof (is_bst_sorted less _ Hb) as Hs.
  unfold strictly_ascending in Hs. rewrite Hrest in Hs.
  inversion Hs as [|? ? _ Hall]; subst.
  now rewrite Forall_forall in Hall.
Qed.

Lemma min_is_least_witness :
  let p := TreeNode 5 (TreeNode 3 (TreeNode 1 nullptr (TreeNode 2 nullptr nullptr))
                         nullptr)
             (TreeNode 8 nullptr nullptr) in
  StrictWeakOrder int_less /\
  is_bst int_less p = true /\
  exists m mr rest,
    min p = TreeNode m nullptr mr /\
    node_in (TreeNode m nullptr mr) p /\
    in_order (mkBST p) = m :: rest /\
    forall x, In x rest -> int_less m x = true.
Proof.
  intros p. split; [exact int_less_swo|]. split; [reflexivity|].
  exact (min_is_least Z int_less int_less_swo 5
           (TreeNode 3 (TreeNode 1 nullptr (TreeNode 2 nullptr nullptr))
              nullptr)
           (TreeNode 8 nullptr nullptr) eq_refl).
Defined.

(** X2. In a subtree satisfying the invariant, [max()] returns a node
    of that subtree without right child whose value comes last in the
    in-order traversal and is above every other stored value. *)
Theorem max_is_greatest :
  forall (T : Type) (less : T -> T -> bool),
    StrictWeakOrder less ->
    forall (d : T) (l r : TreeNodePtr T),
      is_bst less (TreeNode d l r) = true ->
      exists m ml front,
        max (TreeNode d l r) = TreeNode m ml nullptr /\
        node_in (TreeNode m ml nullptr) (TreeNode d l r) /\
        in_order (mkBST (TreeNode d l r)) = front ++ [m] /\
        forall x, In x front -> less x m = true.
Proof.
  intros T less SWO d l r Hb.
  destruct (max_node d l r) as (m & ml & Hm).
  destruct (max_inorder _ _ _ _ Hm) as [_ (front & Hfront)].
  exists m, ml, front. rewrite in_order_root. simpl root.
  repeat split; [exact Hm|now apply max_node_in|exact Hfront|].
  pose proof (is_bst_sorted less _ Hb) as Hs.
  unfold strictly_ascending in Hs. rewrite Hfront in Hs.
  apply sorted_app in Hs. destruct Hs as (_ & _ & Hc).
  intros x Hx. apply Hc; simpl; auto.
Qed.

Lemma max_is_greatest_witness :
  let p := TreeNode 5 (TreeNode 3 nullptr nullptr)
             (TreeNode 8 (TreeNode 7 nullptr nullptr) nullptr) in
  StrictWeakOrder int_less /\
  is_bst int_less p = true /\
  exists m ml front,
    max p = TreeNode m ml nullptr /\
    node_in (TreeNode m ml nullptr) p /\
    in_order (mkBST p) = front ++ [m] /\
    forall x, In x front -> int_less x m = true.
Proof.
  intros p. split; [exact int_less_swo|]. split; [reflexivity|].
  exact (max_is_greatest Z int_less int_less_swo 5
           (TreeNode 3 nullptr nullptr)
           (TreeNode 8 (TreeNode 7 nullptr nullptr) nullptr) eq_refl).
Defined.

(** X3. In a tree satisfying the invariant, [contain(v)] returns true
    exactly when some stored value is comparison-equal to [v]. *)
Theorem contain_iff_stored :
  forall (T : Type) (less : T -> T -> bool),
    StrictWeakOrder less ->
    forall (t : BST T) (v : T),
      BST_inv less t = true ->
      (BST_contain less t v = true <->
       exists x, In x (in_order t) /\ equivb less v x = true).
Proof.
  intros T less SWO t v Hinv. unfold BST_contain, BST_inv in *.
  rewrite in_order_root. split.
  - now apply contain_sound.
  - intros (x & Hin & Heq). eapply contain_equiv; eauto.
Qed.

Lemma contain_iff_stored_witness :
  let t := insert_all key_less [(5, 0); (3, 1); (8, 2)] in
  StrictWeakOrder key_less /\
  BST_inv key_less t = true /\
  (BST_contain key_less t (8, 7) = true <->
   exists x, In x (in_order t) /\ equivb key_less (8, 7) x = true).
Proof.
  intros t. split; [exact key_less_swo|]. split; [reflexivity|].
  exact (contain_iff_stored (Z * Z) key_less key_less_swo t (8, 7) eq_refl).
Defined.

(** X4. For every tree, well-formed or not, [insert(v)] returns true
    exactly when [contain(v)] was false, and [remove(v)] returns true
    exactly when [contain(v)] was true. *)
Theorem results_agree_with_contain :
  forall (T : Type) (less : T -> T -> bool) (t : BST T) (v : T),
    fst (BST_insert less t v) = negb (BST_contain less t v) /\
    fst (BST_remove less t v) = BST_contain less t v.
Proof.
  intros T less t v. unfold BST_contain. split.
  - rewrite BST_insert_fst. apply insert_fst.
  - rewrite BST_remove_fst. apply remove_fst.
Qed.

(** X5. A call that reports failure has changed nothing: when
    [insert] or [remove] returns false the tree is the one it was
    given, for every tree and every comparison. *)
Theorem failure_leaves_tree :
  forall (T : Type) (less : T -> T -> bool) (t : BST T) (v : T),
    (fst (BST_insert less t v) = false -> snd (BST_insert less t v) = t) /\
    (fst (BST_remove less t v) = false -> snd (BST_remove less t v) = t).
Proof.
  intros T less t v. split.
  - rewrite BST_insert_fst, insert_fst. intros H.
    apply negb_false_iff in H. unfold BST_insert.
    rewrite (insert_present less _ _ H). now destruct t.
  - rewrite BST_remove_fst, remove_fst. intros H. unfold BST_remove.
    rewrite (remove_absent less _ _ H). now destruct t.
Qed.

Lemma failure_leaves_tree_witness :
  let t := insert_all int_less [5; 3; 8] in
  (fst (BST_insert int_less t 3) = false /\
   snd (BST_insert int_less t 3) = t) /\
  (fst (BST_remove int_less t 4) = false /\
   snd (BST_remove int_less t 4) = t).
Proof.
  intros t. split; (split; [reflexivity|]).
  - exact (proj1 (failure_leaves_tree Z int_less t 3) eq_refl).
  - exact (proj2 (failure_leaves_tree Z int_less t 4) eq_refl).
Defined.

(** ** How the operations compose *)

Section Composition.

Context {T : Type} (less : T -> T -> bool) `{!StrictWeakOrder less}.
Local Abbreviation ptr := (TreeNodePtr T).

Lemma equivb_trans_false a b c :
  equivb less a b = true -> equivb less b c = false ->
  equivb less a c = false.
Proof.
  intros Hab Hbc. destruct (equivb less a c) eqn:Hac; [|reflexivity].
  rewrite <- Hbc. symmetry. apply (equiv_trans less b a c); [|exact Hac].
  now rewrite equivb_sym.
Qed.

(** Removing a value right after inserting it gives the old tree
    back: the descent reaches the new leaf, which is spliced out. *)
Lemma remove_inserted (p : ptr) v :
  contain less p v = false ->
  remove less (snd (insert less p v)) v = (true, p).
Proof.
  induction p as [|d l IHl r IHr]; simpl.
  - intros _. now rewrite (less_irrefl less).
  - destruct (less v d) eqn:Hvd.
    + intros H. specialize (IHl H). destruct (insert less l v) as [b l'].
      simpl in *. now rewrite Hvd, IHl.
    + destruct (less d v) eqn:Hdv; [|discriminate].
      intros H. specialize (IHr H). destruct (insert less r v) as [b r'].
      simpl in *. now rewrite Hvd, Hdv, IHr.
Qed.

Lemma find_inserted (p : ptr) v :
  contain less p v = false ->
  find_node less (snd (insert less p v)) v = TreeNode v nullptr nullptr.
Proof.
  induction p as [|d l IHl r IHr]; simpl.
  - intros _. now rewrite (less_irrefl less).
  - destruct (less v d) eqn:Hvd.
    + intros H. specialize (IHl H). destruct (insert less l v) as [b l'].
      simpl in *. now rewrite Hvd.
    + destruct (less d v) eqn:Hdv; [|discriminate].
      intros H. specialize (IHr H). destruct (insert less r v) as [b r'].
      simpl in *. now rewrite Hvd, Hdv.
Qed.

(** Membership after an insertion. *)
Lemma contain_insert_other (p : ptr) v w :
  contain less (snd (insert less p v)) w =
    contain less p w || equivb less w v.
Proof.
  induction p as [|d l IHl r IHr]; simpl.
  - unfold equivb. destruct (less w v), (less v w); reflexivity.
  - destruct (less v d) eqn:Hvd.
    + destruct (insert less l v) as [b l']. simpl in *.
      destruct (less w d) eqn:Hwd; [exact IHl|].
      destruct (equivb less w v) eqn:Heq.
      * rewrite (less_equiv_l less _ _ _ Heq Hvd) in Hwd. discriminate.
      * now rewrite orb_false_r.
    + destruct (less d v) eqn:Hdv.
      * destruct (insert less r v) as [b r']. simpl in *.
        destruct (less w d) eqn:Hwd.
        -- destruct (equivb less w v) eqn:Heq; [|now rewrite orb_false_r].
           rewrite equivb_sym in Heq.
           pose proof (less_equiv_l less _ _ _ Heq Hwd) as Hvd'.
           congruence.
        -- destruct (less d w) eqn:Hdw; [exact IHr|reflexivity].
      * simpl. destruct (equivb less w v) eqn:Heq;
          [|now rewrite orb_false_r].
        assert (Hwd : equivb less w d = true).
        { apply (equiv_trans less w v d); [exact Heq|].
          apply equivb_true; auto. }
        apply equivb_true in Hwd. destruct Hwd as [-> ->]. reflexivity.
Qed.

(** Membership as a search of the in-order listing. *)
Lemma contain_existsb (p : ptr) w :
  is_bst less p = true ->
  contain less p w = existsb (equivb less w) (inorder p).
Proof.
  intros Hb. destruct (contain less p w) eqn:Hc; symmetry.
  - apply existsb_exists. now apply (contain_sound less).
  - destruct (existsb (equivb less w) (inorder p)) eqn:He; [|reflexivity].
    apply existsb_exists in He. destruct He as (x & Hin & Heq).
    rewrite (contain_equiv less p w x Hb Hin Heq) in Hc. discriminate.
Qed.

Lemma existsb_filter_equiv v w (xs : list T) :
  existsb (equivb less w) (filter (fun x => negb (equivb less v x)) xs) =
    existsb (equivb less w) xs && negb (equivb less w v).
Proof.
  induction xs as [|x xs IH]; simpl; [reflexivity|].
  destruct (equivb less v x) eqn:Hvx; simpl; rewrite IH.
  - destruct (equivb less w v) eqn:Hwv; simpl.
    + now rewrite !andb_false_r.
    + rewrite !andb_true_r.
      assert (Hwx : equivb less w x = false).
      { rewrite equivb_sym. apply (equivb_trans_false x v w).
        - now rewrite equivb_sym.
        - now rewrite equivb_sym. }
      now rewrite Hwx.
  - destruct (equivb less w v) eqn:Hwv; simpl.
    + rewrite !andb_false_r.
      rewrite (equivb_trans_false w v x Hwv Hvx). reflexivity.
    + now rewrite !andb_true_r.
Qed.

(** Membership after a removal. *)
Lemma contain_remove_other (p : ptr) v w :
  is_bst less p = true ->
  contain less (snd (remove less p v)) w =
    contain less p w && negb (equivb less w v).
Proof.
  intros Hb.
  rewrite !contain_existsb by (try apply remove_is_bst; assumption).
  rewrite (remove_inorder less) by assumption.
  apply existsb_filter_equiv.
Qed.

End Composition.

(** ** Values never appear out of nowhere *)

Section Provenance.

Context {T : Type} (less : T -> T -> bool).
Local Abbreviation ptr := (TreeNodePtr T).

Lemma insert_incl (p : ptr) v x :
  In x (inorder (snd (insert less p v))) -> x = v \/ In x (inorder p).
Proof.
  destruct (contain less p v) eqn:Hc.
  - rewrite (insert_present less _ _ Hc). auto.
  - destruct (new_leaf_inorder _ _ _ (insert_new_leaf less _ _ Hc))
      as (l1 & l2 & E & E').
    rewrite E, E'. rewrite !in_app_iff. simpl. intuition auto.
Qed.

Lemma remove_incl (p : ptr) v x :
  In x (inorder (snd (remove less p v))) -> In x (inorder p).
Proof.
  revert v. induction p as [|d l IHl r IHr]; intros v; [auto|].
  change (inorder (TreeNode d l r)) with (inorder l ++ d :: inorder r).
  simpl remove.
  destruct (less v d).
  - pose proof (IHl v) as IH. destruct (remove less l v) as [b l'].
    simpl in *. rewrite !in_app_iff. simpl. intuition auto.
  - destruct (less d v).
    + pose proof (IHr v) as IH. destruct (remove less r v) as [b r'].
      simpl in *. rewrite !in_app_iff. simpl. intuition auto.
    + destruct l as [|dl ll rl].
      { simpl. auto. }
      destruct r as [|dr lr rr].
      { simpl snd. intros H. apply in_or_app. now left. }
      destruct (min_node dr lr rr) as (m & mr & Hm). rewrite Hm.
      destruct (min_inorder _ _ _ _ Hm) as [_ (rest & Hrest)].
      change (inorder (snd (true, TreeNode m (TreeNode dl ll rl)
                         (snd (remove less (TreeNode dr lr rr) m)))))
        with (inorder (TreeNode dl ll rl) ++
                m :: inorder (snd (remove less (TreeNode dr lr rr) m))).
      rewrite !in_app_iff. intros [H|[<-|H]].
      * now left.
      * right. right. rewrite Hrest. now left.
      * right. right. exact (IHr m H).
Qed.

End Provenance.

(** X6. Inserting the same value twice in a row: the second call
    returns false and leaves the tree as the first call made it,
    whatever the tree was. *)
Theorem insert_twice_rejected :
  forall (T : Type) (less : T -> T -> bool),
    StrictWeakOrder less ->
    forall (t : BST T) (v : T),
      let t1 := snd (BST_insert less t v) in
      BST_contain less t1 v = true /\
      BST_insert less t1 v = (false, t1).
Proof.
  intros T less SWO t v t1.
  assert (Hc : contain less (root t1) v = true).
  { subst t1. rewrite BST_insert_root. now apply contain_inserted. }
  split; [exact Hc|].
  unfold BST_insert at 1. rewrite (insert_present less _ _ Hc).
  now destruct t1.
Qed.

Lemma insert_twice_rejected_witness :
  let t := insert_all int_less [5; 3; 8] in
  let t1 := snd (BST_insert int_less t 4) in
  StrictWeakOrder int_less /\
  BST_contain int_less t1 4 = true /\
  BST_insert int_less t1 4 = (false, t1).
Proof.
  intros t t1. split; [exact int_less_swo|].
  exact (insert_twice_rejected Z int_less int_less_swo t 4).
Defined.

(** X7. Inserting a value the tree does not contain and removing it
    again gives back exactly the tree one started from, node for
    node; [remove] returns true. *)
Theorem insert_then_remove_restores :
  forall (T : Type) (less : T -> T -> bool),
    StrictWeakOrder less ->
    forall (t : BST T) (v : T),
      BST_contain less t v = false ->
      BST_remove less (snd (BST_insert less t v)) v = (true, t).
Proof.
  intros T less SWO t v Hc. unfold BST_contain in Hc.
  unfold BST_remove. rewrite BST_insert_root.
  rewrite (remove_inserted less _ _ Hc). now destruct t.
Qed.

Lemma insert_then_remove_restores_witness :
  let t := insert_all int_less [5; 3; 8; 1] in
  StrictWeakOrder int_less /\
  BST_contain int_less t 4 = false /\
  BST_remove int_less (snd (BST_insert int_less t 4)) 4 = (true, t).
Proof.
  intros t. split; [exact int_less_swo|]. split; [reflexivity|].
  exact (insert_then_remove_restores Z int_less int_less_swo t 4 eq_refl).
Defined.

(** X8. After [remove(v)] on a tree satisfying the invariant, [v] is
    gone for every reader: [contain(v)] is false, [find_node(v)] is
    null, and a second [remove(v)] returns false and changes
    nothing. *)
Theorem remove_then_absent :
  forall (T : Type) (less : T -> T -> bool),
    StrictWeakOrder less ->
    forall (t : BST T) (v : T),
      BST_inv less t = true ->
      let t1 := snd (BST_remove less t v) in
      BST_contain less t1 v = false /\
      BST_find_node less t1 v = nullptr /\
      BST_remove less t1 v = (false, t1).
Proof.
  intros T less SWO t v Hinv t1. unfold BST_inv in Hinv.
  assert (Hc : contain less (root t1) v = false).
  { subst t1. rewrite BST_remove_root.
    rewrite (contain_remove_other less _ v v Hinv).
    rewrite equivb_refl by assumption. apply andb_false_r. }
  repeat split.
  - exact Hc.
  - unfold BST_find_node. rewrite contain_find_node in Hc.
    destruct (find_node less (root t1) v); [reflexivity|discriminate].
  - unfold BST_remove at 1. rewrite (remove_absent less _ _ Hc).
    now destruct t1.
Qed.

Lemma remove_then_absent_witness :
  let t := insert_all int_less [5; 3; 8; 1; 4; 7; 9] in
  let t1 := snd (BST_remove int_less t 5) in
  StrictWeakOrder int_less /\
  BST_inv int_less t = true /\
  BST_contain int_less t1 5 = false /\
  BST_find_node int_less t1 5 = nullptr /\
  BST_remove int_less t1 5 = (false, t1).
Proof.
  intros t t1. split; [exact int_less_swo|]. split; [reflexivity|].
  exact (remove_then_absent Z int_less int_less_swo t 5 eq_refl).
Defined.

(** X9. After [insert(v)], [contain(w)] is true exactly when it was
    true before or [w] is comparison-equal to [v]; no other
    membership answer changes.  This holds for every tree. *)
Theorem contain_after_insert :
  forall (T : Type) (less : T -> T -> bool),
    StrictWeakOrder less ->
    forall (t : BST T) (v w : T),
      BST_contain less (snd (BST_insert less t v)) w =
        BST_contain less t w || equivb less w v.
Proof.
  intros T less SWO t v w. unfold BST_contain.
  rewrite BST_insert_root. now apply contain_insert_other.
Qed.

Lemma contain_after_insert_witness :
  let t := insert_all key_less [(5, 0); (3, 1); (8, 2)] in
  StrictWeakOrder key_less /\
  BST_contain key_less (snd (BST_insert key_less t (4, 0))) (4, 6) =
    BST_contain key_less t (4, 6) || equivb key_less (4, 6) (4, 0).
Proof.
  intros t. split; [exact key_less_swo|].
  exact (contain_after_insert (Z * Z) key_less key_less_swo t (4, 0) (4, 6)).
Defined.

(** X10. After [remove(v)] on a tree satisfying the invariant,
    [contain(w)] is true exactly when it was true before and [w] is
    not comparison-equal to [v]. *)
Theorem contain_after_remove :
  forall (T : Type) (less : T -> T -> bool),
    StrictWeakOrder less ->
    forall (t : BST T) (v w : T),
      BST_inv less t = true ->
      BST_contain less (snd (BST_remove less t v)) w =
        BST_contain less t w && negb (equivb less w v).
Proof.
  intros T less SWO t v w Hinv. unfold BST_contain, BST_inv in *.
  rewrite BST_remove_root. now apply contain_remove_other.
Qed.

Lemma contain_after_remove_witness :
  let t := insert_all int_less [5; 3; 8; 1; 4; 7; 9] in
  StrictWeakOrder int_less /\
  BST_inv int_less t = true /\
  BST_contain int_less (snd (BST_remove int_less t 5)) 7 =
    BST_contain int_less t 7 && negb (equivb int_less 7 5).
Proof.
  intros t. split; [exact int_less_swo|]. split; [reflexivity|].
  exact (contain_after_remove Z int_less int_less_swo t 5 7 eq_refl).
Defined.

(** X11. After a successful [insert(v)], [find_node(v)] returns the
    node just created: a leaf holding [v] itself. *)
Theorem find_node_after_insert :
  forall (T : Type) (less : T -> T -> bool),
    StrictWeakOrder less ->
    forall (t : BST T) (v : T),
      fst (BST_insert less t v) = true ->
      BST_find_node less (snd (BST_insert less t v)) v =
        TreeNode v nullptr nullptr.
Proof.
  intros T less SWO t v Hok.
  rewrite BST_insert_fst, insert_fst in Hok. apply negb_true_iff in Hok.
  unfold BST_find_node. rewrite BST_insert_root.
  now apply find_inserted.
Qed.

Lemma find_node_after_insert_witness :
  let t := insert_all int_less [5; 3; 8] in
  StrictWeakOrder int_less /\
  fst (BST_insert int_less t 4) = true /\
  BST_find_node int_less (snd (BST_insert int_less t 4)) 4 =
    TreeNode 4 nullptr nullptr.
Proof.
  intros t. split; [exact int_less_swo|]. split; [reflexivity|].
  exact (find_node_after_insert Z int_less int_less_swo t 4 eq_refl).
Defined.

(** X12. Neither operation invents a value, on any tree and for any
    comparison: what [in_order()] lists after [insert(v)] is [v] or
    was listed before, and what it lists after [remove(v)] was listed
    before. *)
Theorem no_value_invented :
  forall (T : Type) (less : T -> T -> bool) (t : BST T) (v x : T),
    (In x (in_order (snd (BST_insert less t v))) ->
     x = v \/ In x (in_order t)) /\
    (In x (in_order (snd (BST_remove less t v))) ->
     In x (in_order t)).
Proof.
  intros T less t v x. rewrite !in_order_root.
  rewrite BST_insert_root, BST_remove_root. split.
  - apply insert_incl.
  - apply remove_incl.
Qed.

Lemma no_value_invented_witness :
  let t := mkBST (TreeNode 5 (TreeNode 9 nullptr nullptr)
                    (TreeNode 2 nullptr nullptr)) in
  (In 9 (in_order (snd (BST_insert int_less t 7))) /\
   (9 = 7 \/ In 9 (in_order t))) /\
  (In 2 (in_order (snd (BST_remove int_less t 5))) /\
   In 2 (in_order t)).
Proof.
  intros t. split.
  - assert (H : In 9 (in_order (snd (BST_insert int_less t 7))))
      by (vm_compute; tauto).
    split; [exact H|].
    exact (proj1 (no_value_invented Z int_less t 7 9) H).
  - assert (H : In 2 (in_order (snd (BST_remove int_less t 5))))
      by (vm_compute; tauto).
    split; [exact H|].
    exact (proj2 (no_value_invented Z int_less t 5 2) H).
Defined.

(** ** Building a tree from a list *)

Section ListFacts.

Context {A : Type}.

Lemma filter_none (f : A -> bool) (l : list A) :
  (forall x, In x l -> f x = false) -> filter f l = [].
Proof.
  induction l as [|x l IH]; simpl; [reflexivity|].
  intros H. rewrite (H x (or_introl eq_refl)). auto.
Qed.

Lemma filter_comm (f g : A -> bool) (l : list A) :
  filter f (filter g l) = filter g (filter f l).
Proof.
  induction l as [|x l IH]; simpl; [reflexivity|].
  destruct (f x) eqn:Hf, (g x) eqn:Hg; simpl;
    rewrite ?Hf, ?Hg, IH; reflexivity.
Qed.

(** Pairwise properties of a symmetric relation survive reordering. *)
Lemma ForallOrdPairs_perm (R : A -> A -> Prop) (l l' : list A) :
  (forall a b, R a b -> R b a) ->
  Permutation l l' -> ForallOrdPairs R l -> ForallOrdPairs R l'.
Proof.
  intros Hsym. induction 1 as [|x l l' Hp IH|x y l|l l' l'' _ IH1 _ IH2].
  - auto.
  - intros H. inversion H as [|? ? Hall Hrest]; subst.
    constructor; [|auto]. eapply Permutation_Forall; eauto.
  - intros H. inversion H as [|? ? Hy Hrest]; subst.
    inversion Hrest as [|? ? Hx Hl]; subst.
    inversion Hy as [|? ? Hyx Hyl]; subst.
    constructor; [constructor; auto|]. constructor; auto.
  - auto.
Qed.

(** A strict order has at most one ascending arrangement of a list. *)
Lemma sorted_perm_eq (R : A -> A -> Prop) :
  (forall a, ~ R a a) ->
  (forall a b c, R a b -> R b c -> R a c) ->
  forall l l', StronglySorted R l -> StronglySorted R l' ->
               Permutation l l' -> l = l'.
Proof.
  intros Hirr Htr. induction l as [|a l IH]; intros l' Hs Hs' Hp.
  - apply Permutation_nil in Hp. now subst.
  - destruct l' as [|b l'].
    { apply Permutation_sym, Permutation_nil in Hp. discriminate. }
    inversion Hs as [|? ? Hsl Hal]; subst.
    inversion Hs' as [|? ? Hsl' Hbl']; subst.
    rewrite Forall_forall in Hal, Hbl'.
    assert (Hab : a = b).
    { assert (Ha : In a (b :: l'))
        by (eapply Permutation_in; [exact Hp|now left]).
      assert (Hb : In b (a :: l))
        by (eapply Permutation_in;
            [apply Permutation_sym; exact Hp|now left]).
      destruct Ha as [Ha|Ha]; [auto|].
      destruct Hb as [Hb|Hb]; [auto|].
      exfalso. apply (Hirr a). apply (Htr a b a); auto. }
    subst b. f_equal. apply IH; auto.
    eapply Permutation_cons_inv; eauto.
Qed.

End ListFacts.

Section Bulk.

Context {T : Type} (less : T -> T -> bool) `{!StrictWeakOrder less}.
Local Abbreviation ptr := (TreeNodePtr T).
Local Abbreviation ins := (fun (p : ptr) (v : T) => snd (insert less p v)).

Lemma run_insert_root (vs : list T) (t : BST T) :
  root (run less (map OpInsert vs) t) = fold_left ins vs (root t).
Proof.
  unfold run. revert t.
  induction vs as [|v vs IH]; intros t; [reflexivity|].
  change (root (fold_left (apply_op less) (map OpInsert vs)
                  (snd (BST_insert less t v))) =
          fold_left ins vs (ins (root t) v)).
  rewrite IH. now rewrite BST_insert_root.
Qed.

Lemma ins_left d (l r : ptr) v :
  less v d = true ->
  snd (insert less (TreeNode d l r) v) = TreeNode d (snd (insert less l v)) r.
Proof. simpl. intros ->. now destruct (insert less l v). Qed.

Lemma ins_right d (l r : ptr) v :
  less d v = true ->
  snd (insert less (TreeNode d l r) v) = TreeNode d l (snd (insert less r v)).
Proof.
  intros H. simpl. rewrite (less_asym less _ _ H), H.
  now destruct (insert less r v).
Qed.

(** Values below a node's value are all routed to its left subtree,
    values above it to its right subtree. *)
Lemma route_left d (l r : ptr) (vs : list T) :
  (forall x, In x vs -> less x d = true) ->
  fold_left ins vs (TreeNode d l r) = TreeNode d (fold_left ins vs l) r.
Proof.
  revert l. induction vs as [|v vs IH]; intros l H; [reflexivity|].
  change (fold_left ins vs (snd (insert less (TreeNode d l r) v)) =
          TreeNode d (fold_left ins vs (snd (insert less l v))) r).
  rewrite ins_left by (apply H; now left).
  apply IH. intros x Hx. apply H. now right.
Qed.

Lemma route_right d (l r : ptr) (vs : list T) :
  (forall x, In x vs -> less d x = true) ->
  fold_left ins vs (TreeNode d l r) = TreeNode d l (fold_left ins vs r).
Proof.
  revert r. induction vs as [|v vs IH]; intros r H; [reflexivity|].
  change (fold_left ins vs (snd (insert less (TreeNode d l r) v)) =
          TreeNode d l (fold_left ins vs (snd (insert less r v)))).
  rewrite ins_right by (apply H; now left).
  apply IH. intros x Hx. apply H. now right.
Qed.

Lemma rebuild_from_preorder (p : ptr) :
  is_bst less p = true -> fold_left ins (preorder p) nullptr = p.
Proof.
  induction p as [|d l IHl r IHr]; [reflexivity|].
  intros Hb. apply is_bst_node in Hb. destruct Hb as (Lo & Hi & Hbl & Hbr).
  simpl. rewrite fold_left_app.
  rewrite route_left, (IHl Hbl).
  - rewrite route_right, (IHr Hbr); [reflexivity|].
    intros x Hx. apply Hi.
    eapply Permutation_in; [apply preorder_inorder|exact Hx].
  - intros x Hx. apply Lo.
    eapply Permutation_in; [apply preorder_inorder|exact Hx].
Qed.

Lemma fold_ins_is_bst (vs : list T) (p : ptr) :
  is_bst less p = true -> is_bst less (fold_left ins vs p) = true.
Proof.
  revert p. induction vs as [|v vs IH]; intros p Hb; [exact Hb|].
  simpl. apply IH. now apply insert_is_bst.
Qed.

Lemma fold_ins_perm (vs : list T) :
  forall p : ptr,
    pairwise_distinct less vs ->
    (forall x v, In x (inorder p) -> In v vs -> equivb less v x = false) ->
    Permutation (inorder (fold_left ins vs p)) (inorder p ++ vs).
Proof.
  induction vs as [|v vs IH]; intros p Hd Hfresh.
  - simpl. now rewrite app_nil_r.
  - inversion Hd as [|? ? Hv Hd']; subst.
    rewrite Forall_forall in Hv.
    assert (Hc : contain less p v = false).
    { apply contain_no_equiv. intros x Hx. apply Hfresh; simpl; auto. }
    destruct (new_leaf_inorder _ _ _ (insert_new_leaf less _ _ Hc))
      as (l1 & l2 & E & E').
    simpl. eapply Permutation_trans.
    + apply IH; [exact Hd'|].
      intros x w Hx Hw. rewrite E' in Hx. apply in_app_or in Hx.
      assert (Hx' : x = v \/ In x (inorder p)).
      { rewrite E, in_app_iff. simpl in Hx. intuition auto. }
      destruct Hx' as [->|Hx'].
      * rewrite equivb_sym. now apply Hv.
      * apply Hfresh; simpl; auto.
    + rewrite E', E, <- !app_assoc. apply Permutation_app_head.
      simpl. apply Permutation_middle.
Qed.

Lemma fold_ins_ascending (vs : list T) :
  strictly_ascending less vs ->
  let p := fold_left ins vs nullptr in
  height p = length vs /\ preorder p = vs /\ inorder p = vs.
Proof.
  unfold strictly_ascending.
  induction 1 as [|v vs _ IH Hall]; [repeat split|].
  rewrite Forall_forall in Hall. simpl.
  rewrite route_right by exact Hall.
  destruct IH as (Hh & Hpre & Hin). simpl.
  now rewrite Hh, Hpre, Hin.
Qed.

End Bulk.

Lemma BST_root_eq {T : Type} (a b : BST T) : root a = root b -> a = b.
Proof. destruct a, b. simpl. now intros ->. Qed.

(** X13. A tree satisfying the invariant is rebuilt exactly, shape
    included, by inserting the values of its [pre_order()] listing in
    that order into an empty tree. *)
Theorem pre_order_rebuilds_tree :
  forall (T : Type) (less : T -> T -> bool),
    StrictWeakOrder less ->
    forall t : BST T,
      BST_inv less t = true ->
      insert_all less (pre_order t) = t.
Proof.
  intros T less SWO t Hinv. apply BST_root_eq.
  unfold insert_all. rewrite (run_insert_root less), pre_order_root.
  now apply rebuild_from_preorder.
Qed.

Lemma pre_order_rebuilds_tree_witness :
  let t := snd (BST_remove int_less
                  (insert_all int_less [5; 3; 8; 1; 4; 7; 9]) 5) in
  StrictWeakOrder int_less /\
  BST_inv int_less t = true /\
  insert_all int_less (pre_order t) = t.
Proof.
  intros t. split; [exact int_less_swo|]. split; [reflexivity|].
  exact (pre_order_rebuilds_tree Z int_less int_less_swo t eq_refl).
Defined.

(** X14. Inserting a list of pairwise distinct values into an empty
    tree and reading it with [in_order()] sorts the list: the result
    is strictly ascending and a permutation of the input. *)
Theorem insert_all_sorts :
  forall (T : Type) (less : T -> T -> bool),
    StrictWeakOrder less ->
    forall vs : list T,
      pairwise_distinct less vs ->
      strictly_ascending less (in_order (insert_all less vs)) /\
      Permutation (in_order (insert_all less vs)) vs /\
      length (in_order (insert_all less vs)) = length vs.
Proof.
  intros T less SWO vs Hd.
  assert (Hp : Permutation (in_order (insert_all less vs)) vs).
  { rewrite in_order_root. unfold insert_all.
    rewrite (run_insert_root less).
    apply (fold_ins_perm less vs nullptr Hd). intros x v []. }
  repeat split.
  - rewrite in_order_root. apply is_bst_sorted; [assumption|].
    apply (run_inv less). reflexivity.
  - exact Hp.
  - now apply Permutation_length.
Qed.

Lemma insert_all_sorts_witness :
  StrictWeakOrder int_less /\
  pairwise_distinct int_less [4; 9; 1; 7] /\
  strictly_ascending int_less (in_order (insert_all int_less [4; 9; 1; 7])) /\
  Permutation (in_order (insert_all int_less [4; 9; 1; 7])) [4; 9; 1; 7] /\
  length (in_order (insert_all int_less [4; 9; 1; 7])) = length [4; 9; 1; 7].
Proof.
  assert (Hd : pairwise_distinct int_less [4; 9; 1; 7])
    by (repeat constructor).
  split; [exact int_less_swo|]. split; [exact Hd|].
  exact (insert_all_sorts Z int_less int_less_swo [4; 9; 1; 7] Hd).
Defined.

(** X15. For pairwise distinct values the [in_order()] listing does
    not depend on the order of insertion: two input lists that are
    permutations of each other give the same listing (the trees
    themselves may differ in shape). *)
Theorem in_order_ignores_insertion_order :
  forall (T : Type) (less : T -> T -> bool),
    StrictWeakOrder less ->
    forall vs ws : list T,
      pairwise_distinct less vs ->
      Permutation vs ws ->
      in_order (insert_all less vs) = in_order (insert_all less ws).
Proof.
  intros T less SWO vs ws Hd Hp.
  assert (Hd' : pairwise_distinct less ws).
  { unfold pairwise_distinct in *.
    eapply ForallOrdPairs_perm; [|exact Hp|exact Hd].
    intros a b H. now rewrite equivb_sym. }
  assert (Sv : forall us, pairwise_distinct less us ->
                 strictly_ascending less (in_order (insert_all less us)) /\
                 Permutation (in_order (insert_all less us)) us).
  { intros us Hu. split.
    - rewrite in_order_root. apply is_bst_sorted; [assumption|].
      apply (run_inv less). reflexivity.
    - rewrite in_order_root. unfold insert_all.
      rewrite (run_insert_root less).
      apply (fold_ins_perm less us nullptr Hu). intros x v []. }
  destruct (Sv vs Hd) as [S1 P1]. destruct (Sv ws Hd') as [S2 P2].
  apply (sorted_perm_eq (fun a b => less a b = true)).
  - intros a Ha. now rewrite (less_irrefl less) in Ha.
  - apply (less_trans less).
  - exact S1.
  - exact S2.
  - eapply Permutation_trans; [exact P1|].
    eapply Permutation_trans; [exact Hp|]. now apply Permutation_sym.
Qed.

Lemma in_order_ignores_insertion_order_witness :
  StrictWeakOrder int_less /\
  pairwise_distinct int_less [5; 3; 8] /\
  Permutation [5; 3; 8] [3; 5; 8] /\
  insert_all int_less [5; 3; 8] <> insert_all int_less [3; 5; 8] /\
  in_order (insert_all int_less [5; 3; 8]) =
    in_order (insert_all int_less [3; 5; 8]).
Proof.
  assert (Hd : pairwise_distinct int_less [5; 3; 8]) by (repeat constructor).
  assert (Hp : Permutation [5; 3; 8] [3; 5; 8]) by apply perm_swap.
  split; [exact int_less_swo|]. split; [exact Hd|]. split; [exact Hp|].
  split; [discriminate|].
  exact (in_order_ignores_insertion_order Z int_less int_less_swo
           [5; 3; 8] [3; 5; 8] Hd Hp).
Defined.

(** X16. The tree is never rebalanced: inserting values in strictly
    ascending order into an empty tree gives a chain of right
    children, as deep as the list is long, on which [pre_order()] and
    [in_order()] both return the input. *)
Theorem ascending_input_degenerates :
  forall (T : Type) (less : T -> T -> bool),
    StrictWeakOrder less ->
    forall vs : list T,
      strictly_ascending less vs ->
      height (root (insert_all less vs)) = length vs /\
      pre_order (insert_all less vs) = vs /\
      in_order (insert_all less vs) = vs.
Proof.
  intros T less SWO vs Hs.
  rewrite pre_order_root, in_order_root. unfold insert_all.
  rewrite (run_insert_root less).
  exact (fold_ins_ascending less vs Hs).
Qed.

Lemma ascending_input_degenerates_witness :
  StrictWeakOrder int_less /\
  strictly_ascending int_less [1; 2; 3; 4] /\
  height (root (insert_all int_less [1; 2; 3; 4])) = length [1; 2; 3; 4] /\
  pre_order (insert_all int_less [1; 2; 3; 4]) = [1; 2; 3; 4] /\
  in_order (insert_all int_less [1; 2; 3; 4]) = [1; 2; 3; 4].
Proof.
  assert (Hs : strictly_ascending int_less [1; 2; 3; 4])
    by (repeat constructor).
  split; [exact int_less_swo|]. split; [exact Hs|].
  exact (ascending_input_degenerates Z int_less int_less_swo [1; 2; 3; 4] Hs).
Defined.

(** X17. A successful [insert(v)] on a tree satisfying the invariant
    puts [v] at its sorted position: [in_order()] afterwards is the
    old values below [v], then [v], then the old values above [v]. *)
Theorem insert_lands_in_order :
  forall (T : Type) (less : T -> T -> bool),
    StrictWeakOrder less ->
    forall (t : BST T) (v : T),
      BST_inv less t = true ->
      fst (BST_insert less t v) = true ->
      in_order (snd (BST_insert less t v)) =
        filter (fun x => less x v) (in_order t) ++
        v :: filter (fun x => less v x) (in_order t).
Proof.
  intros T less SWO t v Hinv Hok. unfold BST_inv in Hinv.
  rewrite BST_insert_fst, insert_fst in Hok. apply negb_true_iff in Hok.
  rewrite !in_order_root, BST_insert_root.
  pose proof (is_bst_sorted less _ (insert_is_bst less _ v Hinv)) as Hs.
  destruct (new_leaf_inorder _ _ _ (insert_new_leaf less _ _ Hok))
    as (l1 & l2 & E & E').
  unfold strictly_ascending in Hs. rewrite E' in Hs. rewrite E', E.
  apply sorted_app in Hs. destruct Hs as (_ & Hs & Hc).
  inversion Hs as [|? ? _ Hall]; subst. rewrite Forall_forall in Hall.
  assert (Lo : forall x, In x l1 -> less x v = true)
    by (intros x Hx; apply Hc; simpl; auto).
  rewrite !filter_app.
  rewrite (filter_all (fun x => less x v) l1 Lo).
  rewrite (filter_all (fun x => less v x) l2 Hall).
  rewrite (filter_none (fun x => less x v) l2).
  rewrite (filter_none (fun x => less v x) l1).
  - now rewrite app_nil_r.
  - intros x Hx. apply (less_asym less). auto.
  - intros x Hx. apply (less_asym less). auto.
Qed.

Lemma insert_lands_in_order_witness :
  let t := insert_all int_less [5; 3; 8; 1] in
  StrictWeakOrder int_less /\
  BST_inv int_less t = true /\
  fst (BST_insert int_less t 4) = true /\
  in_order (snd (BST_insert int_less t 4)) =
    filter (fun x => int_less x 4) (in_order t) ++
    4 :: filter (fun x => int_less 4 x) (in_order t).
Proof.
  intros t. split; [exact int_less_swo|].
  split; [reflexivity|]. split; [reflexivity|].
  exact (insert_lands_in_order Z int_less int_less_swo t 4 eq_refl eq_refl).
Defined.

(** X18. The boolean result tells how the number of stored values
    changed: [insert] adds one value when it returns true and none
    otherwise (on any tree); on a tree satisfying the invariant
    [remove] takes one value away when it returns true and none
    otherwise. *)
Theorem size_follows_result :
  forall (T : Type) (less : T -> T -> bool),
    StrictWeakOrder less ->
    forall (t : BST T) (v : T),
      length (in_order (snd (BST_insert less t v))) =
        (length (in_order t)
         + (if fst (BST_insert less t v) then 1 else 0))%nat /\
      (BST_inv less t = true ->
       length (in_order t) =
         (length (in_order (snd (BST_remove less t v)))
          + (if fst (BST_remove less t v) then 1 else 0))%nat).
Proof.
  intros T less SWO t v. split.
  - rewrite BST_insert_fst, insert_fst, !in_order_root, BST_insert_root.
    destruct (contain less (root t) v) eqn:Hc; simpl.
    + rewrite (insert_present less _ _ Hc). simpl. lia.
    + destruct (new_leaf_inorder _ _ _ (insert_new_leaf less _ _ Hc))
        as (l1 & l2 & E & E').
      rewrite E, E', !length_app. simpl. lia.
  - intros Hinv. unfold BST_inv in Hinv.
    rewrite BST_remove_fst, remove_fst, !in_order_root, BST_remove_root.
    destruct (contain less (root t) v) eqn:Hc.
    + destruct (contain_sound less _ _ Hc) as (x & Hin & Heq).
      destruct (remove_splits less _ v x Hinv Hin Heq) as (l1 & l2 & E & E').
      rewrite E, E', !length_app. simpl. lia.
    + rewrite (remove_absent less _ _ Hc). simpl. lia.
Qed.

Lemma size_follows_result_witness :
  let t := insert_all int_less [5; 3; 8; 1; 4; 7; 9] in
  StrictWeakOrder int_less /\
  length (in_order (snd (BST_insert int_less t 6))) =
    (length (in_order t)
     + (if fst (BST_insert int_less t 6%Z) then 1 else 0))%nat /\
  BST_inv int_less t = true /\
  length (in_order t) =
    (length (in_order (snd (BST_remove int_less t 5%Z)))
     + (if fst (BST_remove int_less t 5%Z) then 1 else 0))%nat.
Proof.
  intros t. split; [exact int_less_swo|].
  destruct (size_follows_result Z int_less int_less_swo t 6) as [H _].
  split; [exact H|]. split; [reflexivity|].
  exact (proj2 (size_follows_result Z int_less int_less_swo t 5) eq_refl).
Defined.

(** X19. On a tree satisfying the invariant, two removals can be
    made in either order: the resulting [in_order()] listings are
    the same. *)
Theorem removes_commute :
  forall (T : Type) (less : T -> T -> bool),
    StrictWeakOrder less ->
    forall (t : BST T) (a b : T),
      BST_inv less t = true ->
      in_order (snd (BST_remove less (snd (BST_remove less t a)) b)) =
      in_order (snd (BST_remove less (snd (BST_remove less t b)) a)).
Proof.
  intros T less SWO t a b Hinv. unfold BST_inv in Hinv.
  rewrite !in_order_root, !BST_remove_root.
  rewrite !(remove_inorder less)
    by (try apply remove_is_bst; assumption).
  apply filter_comm.
Qed.

Lemma removes_commute_witness :
  let t := insert_all int_less [5; 3; 8; 1; 4; 7; 9] in
  StrictWeakOrder int_less /\
  BST_inv int_less t = true /\
  in_order (snd (BST_remove int_less (snd (BST_remove int_less t 5)) 8)) =
  in_order (snd (BST_remove int_less (snd (BST_remove int_less t 8)) 5)).
Proof.
  intros t. split; [exact int_less_swo|]. split; [reflexivity|].
  exact (removes_commute Z int_less int_less_swo t 5 8 eq_refl).
Defined.

(** X20. When the node [remove(v)] stops at has at most one child,
    that child (possibly null) takes the node's place and nothing
    else in the tree is touched; this needs neither the invariant
    nor any property of the comparison. *)
Theorem remove_splices_only_child :
  forall (T : Type) (less : T -> T -> bool) (t : BST T) (v d : T)
         (c : TreeNodePtr T),
    BST_find_node less t v = TreeNode d nullptr c \/
    BST_find_node less t v = TreeNode d c nullptr ->
    BST_remove less t v =
      (true, mkBST (replace_found less c (root t) v)).
Proof.
  intros T less t v d c H. unfold BST_find_node in H. unfold BST_remove.
  destruct H as [H|H].
  - now rewrite (remove_no_left less _ _ _ _ H).
  - destruct c as [|dc lc rc].
    + now rewrite (remove_no_left less _ _ _ _ H).
    + now rewrite (remove_no_right less _ _ _ _ _ _ H).
Qed.

Lemma remove_splices_only_child_witness :
  let t := insert_all int_less [5; 3; 8; 1] in
  (BST_find_node int_less t 3 = TreeNode 3 nullptr (TreeNode 1 nullptr nullptr) \/
   BST_find_node int_less t 3 = TreeNode 3 (TreeNode 1 nullptr nullptr) nullptr) /\
  BST_remove int_less t 3 =
    (true,
     mkBST (replace_found int_less (TreeNode 1 nullptr nullptr) (root t) 3)).
Proof.
  intros t.
  assert (H : BST_find_node int_less t 3 =
                TreeNode 3 nullptr (TreeNode 1 nullptr nullptr) \/
              BST_find_node int_less t 3 =
                TreeNode 3 (TreeNode 1 nullptr nullptr) nullptr)
    by (right; reflexivity).
  split; [exact H|].
  exact (remove_splices_only_child Z int_less t 3 3
           (TreeNode 1 nullptr nullptr) H).
Defined.

(** X21. The tree behaves as a set of values up to
    comparison-equality: after any sequence of [insert] and [remove]
    calls on an empty tree, [contain(w)] is true exactly when the
    last call on a value comparison-equal to [w] was an [insert]. *)
Theorem contain_follows_set_model :
  forall (T : Type) (less : T -> T -> bool),
    StrictWeakOrder less ->
    forall (ops : list (Op T)) (w : T),
      BST_contain less (run less ops BST_new) w = member_after less w ops.
Proof.
  intros T less SWO ops w. unfold member_after.
  assert (G : forall (t : BST T),
             BST_inv less t = true ->
             BST_contain less (run less ops t) w =
               fold_left (member_step less w) ops (BST_contain less t w)).
  { induction ops as [|o ops IH]; intros t Ht; [reflexivity|].
    change (run less (o :: ops) t) with (run less ops (apply_op less t o)).
    rewrite IH.
    - simpl. f_equal. destruct o as [v|v]; simpl; unfold BST_contain.
      + rewrite BST_insert_root. now apply contain_insert_other.
      + rewrite BST_remove_root. now apply contain_remove_other.
    - apply (run_inv less [o] t Ht). }
  exact (G BST_new eq_refl).
Qed.

Lemma contain_follows_set_model_witness :
  StrictWeakOrder key_less /\
  BST_contain key_less
    (run key_less [OpInsert (5, 0); OpInsert (3, 1); OpRemove (5, 9);
                   OpInsert (3, 2)] BST_new) (3, 7) =
    member_after key_less (3, 7)
      [OpInsert (5, 0); OpInsert (3, 1); OpRemove (5, 9); OpInsert (3, 2)].
Proof.
  split; [exact key_less_swo|].
  exact (contain_follows_set_model (Z * Z) key_less key_less_swo
           [OpInsert (5, 0); OpInsert (3, 1); OpRemove (5, 9);
            OpInsert (3, 2)] (3, 7)).
Defined.

(** X22. The recursive traversal helpers only append to the vector
    they are handed: what was in [result] before stays in front,
    unchanged, and the listing of the subtree follows it. *)
Theorem traversal_helpers_append :
  forall (T : Type) (p : TreeNodePtr T) (before : list T),
    in_order_rec p before = before ++ in_order (mkBST p) /\
    pre_order_rec p before = before ++ pre_order (mkBST p) /\
    post_order_rec p before = before ++ post_order (mkBST p).
Proof.
  intros T p before.
  rewrite in_order_root, pre_order_root, post_order_root. simpl root.
  repeat split.
  - apply in_order_rec_spec.
  - apply pre_order_rec_spec.
  - apply post_order_rec_spec.
Qed.

(** X23. In a tree satisfying the invariant a lookup has one possible
    answer: the node [find_node(v)] returns holds the only stored
    value that is comparison-equal to [v]. *)
Theorem find_node_unique_match :
  forall (T : Type) (less : T -> T -> bool),
    StrictWeakOrder less ->
    forall (t : BST T) (v d : T) (l r : TreeNodePtr T),
      BST_inv less t = true ->
      BST_find_node less t v = TreeNode d l r ->
      In d (in_order t) /\
      forall x, In x (in_order t) -> equivb less v x = true -> x = d.
Proof.
  intros T less SWO t v d l r Hinv Hf.
  unfold BST_inv, BST_find_node in *. rewrite in_order_root.
  assert (Hd : In d (inorder (root t))).
  { eapply node_in_inorder, find_node_in, Hf. }
  split; [exact Hd|]. intros x Hx Heq.
  assert (Hvd : equivb less v d = true).
  { apply equivb_true. eapply find_node_match, Hf. }
  assert (Hxd : equivb less x d = true).
  { apply (equiv_trans less x v d); [|exact Hvd]. now rewrite equivb_sym. }
  pose proof (is_bst_sorted less _ Hinv) as Hs.
  unfold strictly_ascending in Hs.
  destruct (in_split _ _ Hd) as (l1 & l2 & E). rewrite E in Hs, Hx.
  apply sorted_app in Hs. destruct Hs as (_ & Hs & Hc).
  inversion Hs as [|? ? _ Hall]; subst. rewrite Forall_forall in Hall.
  apply in_app_or in Hx. destruct Hx as [Hx|[Hx|Hx]].
  - rewrite (less_not_equiv less x d) in Hxd; [discriminate|].
    apply Hc; simpl; auto.
  - now symmetry.
  - rewrite (greater_not_equiv less x d (Hall x Hx)) in Hxd. discriminate.
Qed.

Lemma find_node_unique_match_witness :
  let t := insert_all key_less [(5, 0); (3, 1); (8, 2)] in
  StrictWeakOrder key_less /\
  BST_inv key_less t = true /\
  BST_find_node key_less t (3, 9) = TreeNode (3, 1) nullptr nullptr /\
  In (3, 1) (in_order t) /\
  forall x, In x (in_order t) -> equivb key_less (3, 9) x = true ->
            x = (3, 1).
Proof.
  intros t. split; [exact key_less_swo|].
  split; [reflexivity|]. split; [reflexivity|].
  exact (find_node_unique_match (Z * Z) key_less key_less_swo t (3, 9)
           (3, 1) nullptr nullptr eq_refl eq_refl).
Defined.
